(** * webnnpu: image pre-processing, softmax and top-K label selection

    A shallow embedding of the two JavaScript sources of the demo

    - [main.js]   (module [Main]):    [imageDataToTensor], [softmax],
                                      [imagenetClassesTopK];
    - [part_000]  (module [Part000]): [imagenetClasses], [imageDataToTensor],
                                      [softmax], [getTopK];

    together with the small part of the JavaScript run time they rely on
    (module [Js]): completions (normal return or thrown exception), the
    array methods [map], [reduce], [sort], [slice], typed arrays, string
    replacement, and the lodash helpers [sortBy], [reverse], [take].

    Numbers.  The pre-processor only divides a byte by 255 and stores the
    quotient in a [Float32Array]; it is modelled on binary64 primitive
    floats with the binary32 rounding of the store written out.  [softmax]
    is written once over an interface of numbers ([Js.Number]) with two
    instances: exact real arithmetic, in which its arithmetic properties are
    established, and binary64 arithmetic as far as ECMAScript determines
    [Math.exp], in which it can be run on the inputs the standard decides.
    The top-K selection only compares and subtracts probabilities; it is
    modelled on rationals, which contain every finite binary64 value. *)

From Stdlib Require Import ZArith QArith Reals Lia.
From Stdlib Require Lqa.
From Stdlib Require Import Lra.
From Stdlib Require Import Floats SpecFloat.
From Stdlib Require Import Ascii String DecimalString.
From stdpp Require Import base list sorting.

Set Default Proof Using "Type".

#[local] Open Scope list_scope.
#[local] Open Scope nat_scope.

(* ===================================================================== *)
(** * The JavaScript run time *)
(* ===================================================================== *)

Module Js.

(** ** Completions: a call returns a value or throws *)

Inductive Exception : Type :=
| TypeError (message : string).

Inductive Completion (A : Type) : Type :=
| Normal (value : A)
| Throw (exn : Exception).

Arguments Normal {A} value.
Arguments Throw {A} exn.

#[export] Instance Completion_ret : MRet Completion := @Normal.

#[export] Instance Completion_bind : MBind Completion :=
  fun A B (k : A -> Completion B) (c : Completion A) =>
    match c with
    | Normal a => k a
    | Throw e => Throw e
    end.

(** ** Arrays *)

(** [Array.prototype.map]: the callback receives the element and its index. *)
Definition Array_map {A B : Type} (callbackfn : A -> nat -> B) (array : list A)
  : list B :=
  imap (fun index element => callbackfn element index) array.

(** [Array.prototype.map] with a callback that may throw: the elements are
    visited from left to right and the first exception aborts the call. *)
Definition Array_mapM {A B : Type} (callbackfn : A -> Completion B)
  (array : list A) : Completion (list B) :=
  mapM callbackfn array.

(** [Array.prototype.reduce] called without an initial value: the first
    element seeds the accumulator, and an empty array is a [TypeError]. *)
Definition Array_reduce {A : Type} (callbackfn : A -> A -> A) (array : list A)
  : Completion A :=
  match array with
  | [] => Throw (TypeError "Reduce of empty array with no initial value")
  | first :: rest => Normal (foldl callbackfn first rest)
  end.

(** [Array.prototype.slice(0, k)] and lodash [_.take(array, k)], for a count
    [k] (a non-negative integer): the first [k] elements, all of them when
    the array is shorter. *)
Definition Array_slice0 {A : Type} (array : list A) (k : nat) : list A :=
  take k array.

Definition lodash_take {A : Type} (array : list A) (k : nat) : list A :=
  take k array.

(** lodash [_.reverse]. *)
Definition lodash_reverse {A : Type} (array : list A) : list A :=
  rev array.

(** A strict comparison on rationals that computes. *)
Definition Q_ltb (x y : Q) : bool := negb (Qle_bool y x).

(** [Array.prototype.sort(comparefn)].  The sort is stable; [comparefn a b]
    is a number, and [a] is placed after [b] exactly when it is positive.
    [sort_insert] puts an element that stood in front of [sorted] into its
    place: it moves behind the elements it must follow and stays in front of
    the first one it need not follow. *)
Fixpoint sort_insert {A : Type} (comparefn : A -> A -> Q) (x : A)
  (sorted : list A) : list A :=
  match sorted with
  | [] => [x]
  | y :: rest =>
      if Q_ltb 0 (comparefn x y)
      then y :: sort_insert comparefn x rest
      else x :: y :: rest
  end.

Definition Array_sort {A : Type} (comparefn : A -> A -> Q) (array : list A)
  : list A :=
  foldr (sort_insert comparefn) [] array.

(** lodash [compareAscending] on numbers and [_.sortBy]: a stable ascending
    sort on the value of the iteratee. *)
Definition compareAscending (value other : Q) : Q :=
  if Q_ltb other value then 1%Q
  else if Q_ltb value other then (-1)%Q
  else 0%Q.

Definition lodash_sortBy {A : Type} (iteratee : A -> Q) (collection : list A)
  : list A :=
  Array_sort (fun a b => compareAscending (iteratee a) (iteratee b)) collection.

(** ** Strings *)

(** [s.replace(/_/g, " ")]: every underscore becomes a space. *)
Fixpoint replace_underscores (s : string) : string :=
  match s with
  | EmptyString => EmptyString
  | String c rest =>
      String (if Ascii.eqb c "_"%char then " "%char else c)
             (replace_underscores rest)
  end.

(** [index.toString()], the decimal numeral of an array index. *)
Definition toString (index : nat) : string :=
  NilZero.string_of_uint (Nat.to_uint index).

(** ** Numbers used by softmax

    [Math_max xs] is [Math.max(...xs)], [Math_exp] is [Math.exp], and the
    three operators are [-], [+] and [/] on numbers. *)
Class Number (num : Type) : Type := {
  Math_max : list num -> num;
  Math_exp : num -> num;
  num_sub : num -> num -> num;
  num_add : num -> num -> num;
  num_div : num -> num -> num
}.

(** Exact real arithmetic.  There is no [-Infinity] among the reals;
    [Math.max()] of no argument is given the value [0], which no caller
    below consumes: [map] over an empty array never calls its callback. *)
#[export] Instance RealNumber : Number R := {
  Math_max xs := match xs with
                 | [] => 0%R
                 | x :: rest => foldl Rmax x rest
                 end;
  Math_exp := exp;
  num_sub := Rminus;
  num_add := Rplus;
  num_div := Rdiv
}.

(** Binary64 arithmetic, as far as the language fixes it.  [-], [+] and [/]
    are the IEEE 754 operations.  [Math.exp] is fixed by ECMAScript at NaN,
    at the two zeros and at the two infinities only, and is
    "implementation-approximated" everywhere else: its value there, and
    whatever is computed from such a value, is [Approximated]. *)
Inductive Binary64 : Type :=
| Exactly (value : float)
| Approximated.

Definition lift2 (op : float -> float -> float) (x y : Binary64) : Binary64 :=
  match x, y with
  | Exactly a, Exactly b => Exactly (op a b)
  | _, _ => Approximated
  end.

Definition exp64 (x : Binary64) : Binary64 :=
  match x with
  | Exactly a =>
      if is_nan a then Exactly nan
      else if is_zero a then Exactly 1%float
      else if is_infinity a
           then (if get_sign a then Exactly 0%float else Exactly infinity)
           else Approximated
  | Approximated => Approximated
  end.

(** One turn of the loop of [Math.max]: NaN wins, then [+0] over [-0], then
    the larger number. *)
Definition max_step (highest number : float) : float :=
  if is_nan highest || is_nan number then nan
  else if is_zero number && negb (get_sign number)
          && (is_zero highest && get_sign highest) then number
  else if (highest <? number)%float then number
  else highest.

Definition max64 (numbers : list Binary64) : Binary64 :=
  foldl (lift2 max_step) (Exactly neg_infinity) numbers.

#[export] Instance Binary64Number : Number Binary64 := {
  Math_max := max64;
  Math_exp := exp64;
  num_sub := lift2 PrimFloat.sub;
  num_add := lift2 PrimFloat.add;
  num_div := lift2 PrimFloat.div
}.

(** ** Typed arrays and binary32 *)

(** Rounding of a binary64 number to the nearest binary32 number, ties to
    even: what a store into a [Float32Array] does. *)
Definition fround (x : float) : float :=
  match Prim2SF x with
  | S754_finite s m e => SF2Prim (binary_round 24 128 s m e)
  | _ => x
  end.

(** [new Float32Array(n)]: [n] zeros. *)
Definition Float32Array (n : nat) : list float := replicate n 0%float.

(** [array[i] = v] on a [Float32Array]: the value is rounded to binary32;
    an index outside the array is ignored (typed arrays do not grow). *)
Definition Float32Array_set (array : list float) (i : nat) (v : float)
  : list float :=
  <[i := fround v]> array.

(** The value of a [Uint8Array] element as a number. *)
Definition Number_of_byte (b : Byte.byte) : float :=
  PrimFloat.of_uint63 (Uint63.of_Z (Z.of_N (Byte.to_N b))).

(** [ToNumber] of the result of an indexed read of a byte array: reading
    outside the array gives [undefined], whose numeric value is [NaN]. *)
Definition ToNumber (element : option Byte.byte) : float :=
  match element with
  | Some b => Number_of_byte b
  | None => nan
  end.

(** [for (let i = 0; i < n; i++) body], threading the state of the loop. *)
Definition for_loop {S : Type} (n : nat) (body : nat -> S -> S) (init : S) : S :=
  foldl (fun state i => body i state) init (seq 0 n).

End Js.

Import Js.

Declare Scope num_scope.
Delimit Scope num_scope with num.
Notation "x - y" := (num_sub x y) : num_scope.
Notation "x + y" := (num_add x y) : num_scope.
Notation "x / y" := (num_div x y) : num_scope.

(* ===================================================================== *)
(** * Data shared by the two sources *)
(* ===================================================================== *)

(** A decoded bitmap ([Jimp]'s [bitmap], the canvas' [ImageData]): RGBA
    bytes, row-major, with its dimensions. *)
Record Image : Type := {
  image_data : list Byte.byte;
  image_width : nat;
  image_height : nat
}.

(** [new ort.Tensor(type, data, dims)]. *)
Record Tensor : Type := {
  tensor_type : string;
  tensor_data : list float;
  tensor_dims : list nat
}.

(** One body of the conversion loop, the same in both sources:
    [float32Data[pixelCount * c + i] = buffer[i * 4 + c] / 255.0]
    for the channels [c = 0, 1, 2]. *)
Definition store_pixel (buffer : list Byte.byte) (pixelCount : nat) (i : nat)
  (float32Data : list float) : list float :=
  let float32Data :=
    Float32Array_set float32Data (pixelCount * 0 + i)
      (ToNumber (buffer !! (i * 4 + 0)%nat) / 255)%float in
  let float32Data :=
    Float32Array_set float32Data (pixelCount * 1 + i)
      (ToNumber (buffer !! (i * 4 + 1)%nat) / 255)%float in
  let float32Data :=
    Float32Array_set float32Data (pixelCount * 2 + i)
      (ToNumber (buffer !! (i * 4 + 2)%nat) / 255)%float in
  float32Data.

(* ===================================================================== *)
(** * main.js *)
(* ===================================================================== *)

Module Main.

Definition imageDataToTensor (image : Image) : Completion Tensor :=
  let imageBufferData := image_data image in
  let pixelCount := image_width image * image_height image in
  let float32Data := Float32Array (3 * pixelCount) in
  let float32Data :=
    for_loop pixelCount (store_pixel imageBufferData pixelCount) float32Data in
  let dimensions := [1; 3; image_height image; image_width image] in
  let inputTensor :=
    {| tensor_type := "float32"; tensor_data := float32Data;
       tensor_dims := dimensions |} in
  mret inputTensor.

Definition softmax {num : Type} `{Number num} (resultArray : list num)
  : Completion (list num) :=
  let largestNumber := Math_max resultArray in
  sumOfExp ←
    Array_reduce (fun prevNumber currentNumber => (prevNumber + currentNumber)%num)
      (Array_map (fun resultItem _ => Math_exp (resultItem - largestNumber)%num)
         resultArray);
  mret (Array_map
          (fun resultValue index =>
             (Math_exp (resultValue - largestNumber) / sumOfExp)%num)
          resultArray).

(** An entry of the result of [imagenetClassesTopK]. *)
Record Prediction (ClassId : Type) : Type := {
  id : ClassId;
  index : nat;
  name : string;
  probability : Q
}.

Arguments id {ClassId} _.
Arguments index {ClassId} _.
Arguments name {ClassId} _.
Arguments probability {ClassId} _.

Section TopK.

(** The table [imagenetClasses] is a global that main.js reads and does not
    define: an array of [[id, name]] pairs indexed by class. *)
Context {ClassId : Type}.
Variable imagenetClasses : list (ClassId * string).

(** The callback of the final [map].  When the table has no entry at the
    index, [iClass] is [undefined] and reading [iClass[0]] throws.  The field
    [index] is [parseInt(probIndex[1].toString(), 10)], which is the index
    itself. *)
Definition describe (probIndex : Q * nat) : Completion (Prediction ClassId) :=
  match imagenetClasses !! probIndex.2 with
  | None =>
      Throw (TypeError "Cannot read properties of undefined (reading '0')")
  | Some iClass =>
      mret {| id := iClass.1;
              index := probIndex.2;
              name := replace_underscores iClass.2;
              probability := probIndex.1 |}
  end.

Definition imagenetClassesTopK (classProbabilities : list Q) (k : nat)
  : Completion (list (Prediction ClassId)) :=
  let probs := classProbabilities in
  let sorted :=
    lodash_reverse
      (lodash_sortBy (fun probIndex : Q * nat => probIndex.1)
         (Array_map (fun prob index => (prob, index)) probs)) in
  let topK := Array_mapM describe (lodash_take sorted k) in
  topK.

End TopK.

End Main.

(* ===================================================================== *)
(** * part_000 *)
(* ===================================================================== *)

Module Part000.

Definition imagenetClasses : list (nat * string) :=
  [ (0, "tench"); (1, "goldfish"); (2, "great_white_shark"); (3, "tiger_shark");
    (4, "hammerhead"); (5, "electric_ray"); (6, "stingray"); (7, "cock");
    (8, "hen"); (9, "ostrich"); (10, "brambling"); (11, "goldfinch");
    (12, "house_finch"); (13, "junco"); (14, "indigo_bunting"); (15, "robin");
    (16, "bulbul"); (17, "jay"); (18, "magpie"); (19, "chickadee") ]%string.

Section Preprocess.

(** [resizeImageData] redraws the image on a canvas of the target size and
    reads the pixels back; the canvas belongs to the browser, so the
    resampled buffer is taken as given. *)
Variable resizeImageData : Image -> nat -> nat -> list Byte.byte.

Definition imageDataToTensor (imageData : Image) (targetWidth targetHeight : nat)
  : Completion Tensor :=
  let resizedData := resizeImageData imageData targetWidth targetHeight in
  let pixelCount := targetWidth * targetHeight in
  let float32Data := Float32Array (3 * pixelCount) in
  let float32Data :=
    for_loop pixelCount (store_pixel resizedData pixelCount) float32Data in
  let dimensions := [1; 3; targetHeight; targetWidth] in
  mret {| tensor_type := "float32"; tensor_data := float32Data;
          tensor_dims := dimensions |}.

End Preprocess.

Definition softmax {num : Type} `{Number num} (resultArray : list num)
  : Completion (list num) :=
  let largestNumber := Math_max resultArray in
  sumOfExp ←
    Array_reduce (fun prevNumber currentNumber => (prevNumber + currentNumber)%num)
      (Array_map (fun resultItem _ => Math_exp (resultItem - largestNumber)%num)
         resultArray);
  mret (Array_map
          (fun resultValue _ =>
             (Math_exp (resultValue - largestNumber) / sumOfExp)%num)
          resultArray).

(** An entry of the result of [getTopK]. *)
Record Prediction : Type := {
  id : nat;
  name : string;
  probability : Q
}.

Definition className (index : nat) : string :=
  match imagenetClasses !! index with
  | Some entry => entry.2
  | None => ("class_" ++ toString index)%string
  end.

Definition getTopK (classProbabilities : list Q) (k : nat) : list Prediction :=
  let probs := classProbabilities in
  let sorted :=
    Array_slice0
      (Array_sort (fun a b : Q * nat => (b.1 - a.1)%Q)
         (Array_map (fun prob index => (prob, index)) probs))
      k in
  Array_map
    (fun '(prob, index) _ =>
       {| id := index;
          name := replace_underscores (className index);
          probability := prob |})
    sorted.

End Part000.

(* ===================================================================== *)
(** * part_000: the frame loop *)
(* ===================================================================== *)

Module FrameLoop.

(** The page while video frames are classified.  [isProcessing] is the
    global busy flag.  Every call of [processVideoFrames] (one per
    [loadeddata] event) starts a loop of its own, with its own [frameCount];
    the loops are numbered in the order in which they start.  JavaScript
    runs one piece of code at a time, so between two pieces a loop is in one
    of three places: waiting for the timer that will call [processFrame]
    again, suspended at [await runModel(tensor)], or finished. *)
Record Page : Type := {
  isProcessing : bool;
  loops : nat;
  frameCount : nat -> nat;
  timers : list nat;
  awaiting : list nat;
  statusText : string;
  detections : list Part000.Prediction
}.

(** What the page is when the model has been loaded: no loop yet, and the
    status line that the [DOMContentLoaded] handler wrote. *)
Definition loaded : Page :=
  {| isProcessing := false; loops := 0; frameCount := fun _ => 0;
     timers := []; awaiting := [];
     statusText := "Model loaded! Processing video frames...";
     detections := [] |}.

Definition message (exn : Exception) : string :=
  match exn with
  | TypeError text => text
  end.

Definition without (loop : nat) (pending : list nat) : list nat :=
  filter (fun other => other <> loop) pending.

(** [setTimeout(() => requestAnimationFrame(processFrame), 1000)]. *)
Definition schedule (loop : nat) (page : Page) : Page :=
  {| isProcessing := isProcessing page; loops := loops page;
     frameCount := frameCount page; timers := loop :: timers page;
     awaiting := awaiting page; statusText := statusText page;
     detections := detections page |}.

(** The [catch] block followed by [isProcessing = false]. *)
Definition failed (exn : Exception) (page : Page) : Page :=
  {| isProcessing := false; loops := loops page;
     frameCount := frameCount page; timers := timers page;
     awaiting := awaiting page;
     statusText := "Error processing frame: " ++ message exn;
     detections := detections page |}.

(** [processFrame] from its start to the point where it returns or reaches
    [await].  [stopped] is [video.paused || video.ended]; [capture] is the
    outcome of drawing the frame on the canvas and reading it back, the
    statements of the [try] block that can throw before [runModel] is
    called. *)
Definition processFrame (loop : nat) (stopped : bool)
  (capture : Completion unit) (page : Page) : Page :=
  if stopped then page
  else if negb (isProcessing page) then
    let started :=
      {| isProcessing := true; loops := loops page;
         frameCount := fun other =>
           if decide (other = loop) then S (frameCount page loop)
           else frameCount page other;
         timers := timers page; awaiting := awaiting page;
         statusText := statusText page; detections := detections page |} in
    match capture with
    | Normal _ =>
        {| isProcessing := isProcessing started; loops := loops started;
           frameCount := frameCount started; timers := timers started;
           awaiting := loop :: awaiting started;
           statusText := statusText started;
           detections := detections started |}
    | Throw exn => schedule loop (failed exn started)
    end
  else schedule loop page.

(** [processFrame] from the point where the promise of [runModel] settles:
    the rest of the [try] block or the [catch] block, then
    [isProcessing = false] and the timer for the next frame. *)
Definition resume (loop : nat) (outcome : Completion (list Part000.Prediction))
  (page : Page) : Page :=
  match outcome with
  | Normal predictions =>
      schedule loop
        {| isProcessing := false; loops := loops page;
           frameCount := frameCount page; timers := timers page;
           awaiting := awaiting page;
           statusText :=
             "Processing frame " ++ toString (frameCount page loop)
               ++ "... (using NPU)";
           detections := predictions |}
  | Throw exn => schedule loop (failed exn page)
  end.

(** What can happen to the page: the video fires [loadeddata], which calls
    [processVideoFrames] and with it [processFrame] for a new loop; the
    timer of a loop fires; the promise that a loop awaits settles. *)
Inductive Event : Type :=
| Loadeddata (stopped : bool) (capture : Completion unit)
| Timer (loop : nat) (stopped : bool) (capture : Completion unit)
| Settled (loop : nat) (outcome : Completion (list Part000.Prediction)).

Definition handle (page : Page) (event : Event) : Page :=
  match event with
  | Loadeddata stopped capture =>
      processFrame (loops page) stopped capture
        {| isProcessing := isProcessing page; loops := S (loops page);
           frameCount := frameCount page; timers := timers page;
           awaiting := awaiting page; statusText := statusText page;
           detections := detections page |}
  | Timer loop stopped capture =>
      if decide (loop ∈ timers page) then
        processFrame loop stopped capture
          {| isProcessing := isProcessing page; loops := loops page;
             frameCount := frameCount page;
             timers := without loop (timers page);
             awaiting := awaiting page; statusText := statusText page;
             detections := detections page |}
      else page
  | Settled loop outcome =>
      if decide (loop ∈ awaiting page) then
        resume loop outcome
          {| isProcessing := isProcessing page; loops := loops page;
             frameCount := frameCount page; timers := timers page;
             awaiting := without loop (awaiting page);
             statusText := statusText page;
             detections := detections page |}
      else page
  end.

(** The page after a sequence of events. *)
Definition run (events : list Event) (page : Page) : Page :=
  foldl handle page events.

End FrameLoop.

(* ===================================================================== *)
(** * Vocabulary of the statements *)
(* ===================================================================== *)

(** The sum of a sequence of reals. *)
Fixpoint Rsum (xs : list R) : R :=
  match xs with
  | [] => 0%R
  | x :: rest => (x + Rsum rest)%R
  end.

(** Adding a constant to every score. *)
Definition shift {num : Type} `{Number num} (c : num) (scores : list num)
  : list num :=
  (fun x => (x + c)%num) <$> scores.

(** The largest finite power of two of binary64, [2 ** 1023] in JavaScript;
    its double is not a finite binary64 number. *)
Definition two_to_1023 : float := 0x1p+1023%float.

(** The softmax contract as the specification words it: a result of equal
    length, every element in the open interval (0,1), the elements summing
    to 1 within 1e-6. *)
Definition open_unit_distribution (scores probs : list R) : Prop :=
  length probs = length scores /\
  Forall (fun p => (0 < p < 1)%R) probs /\
  (Rabs (Rsum probs - 1) <= 1e-6)%R.

(** The value the conversion loop writes for channel [c] of pixel [i]: the
    binary32 value of [buffer[i * 4 + c] / 255.0]. *)
Definition written (buffer : list Byte.byte) (c i : nat) : float :=
  fround (ToNumber (buffer !! (i * 4 + c)%nat) / 255)%float.

(** An RGBA pixel, and the buffer that holds a sequence of pixels with
    their four channels interleaved. *)
Record Pixel : Type := {
  red : Byte.byte;
  green : Byte.byte;
  blue : Byte.byte;
  alpha : Byte.byte
}.

Fixpoint interleaved (pixels : list Pixel) : list Byte.byte :=
  match pixels with
  | [] => []
  | p :: rest => red p :: green p :: blue p :: alpha p :: interleaved rest
  end.

(** The channel-planar layout: all the reds, then all the greens, then all
    the blues, each as the binary32 value of the byte over 255. *)
Definition planar (pixels : list Pixel) : list float :=
  ((fun p => fround (Number_of_byte (red p) / 255)%float) <$> pixels) ++
  ((fun p => fround (Number_of_byte (green p) / 255)%float) <$> pixels) ++
  ((fun p => fround (Number_of_byte (blue p) / 255)%float) <$> pixels).

(** The 2x2 image of the specification's example: a red, a green, a blue
    and a white pixel, all opaque. *)
Definition example_pixels : list Pixel :=
  [ {| red := Byte.xff; green := Byte.x00; blue := Byte.x00; alpha := Byte.xff |};
    {| red := Byte.x00; green := Byte.xff; blue := Byte.x00; alpha := Byte.xff |};
    {| red := Byte.x00; green := Byte.x00; blue := Byte.xff; alpha := Byte.xff |};
    {| red := Byte.xff; green := Byte.xff; blue := Byte.xff; alpha := Byte.xff |} ].

Definition example_image : Image :=
  {| image_data := interleaved example_pixels;
     image_width := 2; image_height := 2 |}.

(** Two images whose buffer does not hold [width * height * 4] bytes: a 1x1
    image with a single byte, and a 1x1 image with five bytes. *)
Definition short_image : Image :=
  {| image_data := [Byte.xff]; image_width := 1; image_height := 1 |}.

Definition long_image : Image :=
  {| image_data := [Byte.xff; Byte.x00; Byte.xff; Byte.xff; Byte.xff];
     image_width := 1; image_height := 1 |}.

(** [a] sorts stably before [b]: [a] comes no later than [b] in the order
    [leb] of the sort keys, and when the two keys are tied [a] is the one
    that stood first in the array that was sorted. *)
Definition stably_before {A : Type} (leb : A -> A -> bool) (position : A -> nat)
  (a b : A) : Prop :=
  leb a b = true /\ (leb b a = true -> position a < position b).

(** The two key orders of the top-K selections, on pairs of a probability
    and its index: larger probability first (the comparator of [getTopK]),
    smaller probability first (the [sortBy] of [imagenetClassesTopK]). *)
Definition larger_first (a b : Q * nat) : bool := Qle_bool b.1 a.1.

Definition smaller_first (a b : Q * nat) : bool := Qle_bool a.1 b.1.

(** The probabilities paired with their indices, as both selections build
    them before sorting. *)
Definition indexed (probs : list Q) : list (Q * nat) :=
  Array_map (fun prob index => (prob, index)) probs.

(** The record [getTopK] builds for a selected pair. *)
Definition prediction_of (entry : Q * nat) : Part000.Prediction :=
  let '(prob, index) := entry in
  {| Part000.id := index;
     Part000.name := replace_underscores (Part000.className index);
     Part000.probability := prob |}.

(** Twenty zero probabilities followed by a one: the best class, 20, is one
    that the table of part_000 (classes 0 to 19) does not list. *)
Definition beyond_table : list Q := replicate 20 0%Q ++ [1%Q].

(** The pages that the frame loop keeps to: every live loop is in one place
    only and was started by the page, at most one loop is suspended at
    [await], the busy flag is raised exactly while one is, and a suspended
    loop has counted its frame. *)
Record consistent (page : FrameLoop.Page) : Prop := {
  one_place : NoDup (FrameLoop.timers page ++ FrameLoop.awaiting page);
  started_here :
    Forall (fun loop => loop < FrameLoop.loops page)
      (FrameLoop.timers page ++ FrameLoop.awaiting page);
  one_in_flight : length (FrameLoop.awaiting page) <= 1;
  flag_raised :
    FrameLoop.isProcessing page = true <-> FrameLoop.awaiting page <> [];
  frame_counted :
    Forall (fun loop => 1 <= FrameLoop.frameCount page loop)
      (FrameLoop.awaiting page)
}.

(** A loop that has finished: it was started, and it neither waits for a
    timer nor for a promise. *)
Definition finished (loop : nat) (page : FrameLoop.Page) : Prop :=
  loop < FrameLoop.loops page /\
  (loop ∉ FrameLoop.timers page) /\ (loop ∉ FrameLoop.awaiting page).

(* ===================================================================== *)
(** * softmax over any numbers *)
(* ===================================================================== *)

Section SoftmaxAnyNumber.

Context {num : Type} `{Number num}.

Lemma Array_map_ignores_index {A B : Type} (f : A -> B) (l : list A) :
  Array_map (fun x _ => f x) l = f <$> l.
Proof. unfold Array_map. exact (imap_const f l). Qed.

Lemma Array_map_length {A B : Type} (f : A -> nat -> B) (l : list A) :
  length (Array_map f l) = length l.
Proof. unfold Array_map. apply length_imap. Qed.

(** What [Main.softmax] computes, with the monad unfolded. *)
Lemma softmax_unfold (first : num) (rest : list num) :
  let largest := Math_max (first :: rest) in
  Main.softmax (first :: rest) =
    Normal ((fun x =>
               (Math_exp (x - largest) /
                foldl num_add (Math_exp (first - largest)%num)
                  ((fun y => Math_exp (y - largest)%num) <$> rest))%num)
              <$> first :: rest).
Proof.
  intros largest. unfold Main.softmax. fold largest.
  rewrite Array_map_ignores_index, fmap_cons.
  cbn [Array_reduce mbind Completion_bind mret Completion_ret].
  rewrite Array_map_ignores_index. reflexivity.
Qed.

(** The body of [Part000.softmax] is that of [Main.softmax], its second
    callback only leaves the index parameter out. *)
Lemma softmax_part000_body (resultArray : list num) :
  Part000.softmax resultArray = Main.softmax resultArray.
Proof. reflexivity. Qed.

End SoftmaxAnyNumber.

(** C8. The [softmax] of main.js and the [softmax] of part_000 are the same
    function: on every score vector, over any numbers, they return the same
    sequence or throw the same exception. *)
Theorem softmax_main_eq_part000 :
  forall (num : Type) (N : Number num) (resultArray : list num),
    Main.softmax resultArray = Part000.softmax resultArray.
Proof.
  intros num N resultArray. unfold Main.softmax, Part000.softmax.
  f_equal.
Qed.

(** C7. On the empty sequence [softmax] does not return a value: it fails,
    with the exception that [reduce] throws on an empty array that has no
    initial value, the failure that the specification files under
    InvalidInput.  This holds over any numbers, whatever [Math.max] makes of
    an empty argument list. *)
Theorem softmax_empty_fails :
  forall (num : Type) (N : Number num),
    Main.softmax (@nil num) =
      Throw (TypeError "Reduce of empty array with no initial value") /\
    Part000.softmax (@nil num) =
      Throw (TypeError "Reduce of empty array with no initial value") /\
    (forall probs : list num,
        Main.softmax (@nil num) <> Normal probs /\
        Part000.softmax (@nil num) <> Normal probs).
Proof.
  intros num N. repeat split; try reflexivity; discriminate.
Qed.

(* ===================================================================== *)
(** * softmax in exact real arithmetic *)
(* ===================================================================== *)

Section SoftmaxReal.

#[local] Open Scope R_scope.

Lemma foldl_Rplus_Rsum (a : R) (l : list R) : foldl Rplus a l = a + Rsum l.
Proof.
  revert a. induction l as [|x l IH]; intros a; simpl.
  - lra.
  - rewrite IH. lra.
Qed.

Lemma Rsum_scale (f : R -> R) (s : R) (l : list R) :
  Rsum ((fun x => f x / s) <$> l) = Rsum (f <$> l) / s.
Proof.
  induction l as [|x l IH].
  - cbn. unfold Rdiv. lra.
  - rewrite !fmap_cons. cbn [Rsum]. rewrite IH. unfold Rdiv. lra.
Qed.

Lemma Rsum_nonneg (es : list R) : Forall (fun e => 0 < e) es -> 0 <= Rsum es.
Proof.
  induction 1 as [|e es He _ IH]; simpl; lra.
Qed.

Lemma Rsum_pos (es : list R) :
  es <> [] -> Forall (fun e => 0 < e) es -> 0 < Rsum es.
Proof.
  intros Hne Hpos. destruct Hpos as [|e es He Hes]; [congruence|].
  simpl. pose proof (Rsum_nonneg es Hes). lra.
Qed.

(** A term of a sum of positive reals is at most the sum, and smaller than
    it as soon as the sum has another term. *)
Lemma Rsum_term (es : list R) (e : R) :
  Forall (fun e => 0 < e) es -> e ∈ es ->
  e <= Rsum es /\ ((2 <= length es)%nat -> e < Rsum es).
Proof.
  induction 1 as [|a es Ha Hes IH]; intros Hin.
  - inversion Hin.
  - apply elem_of_cons in Hin as [->|Hin]; simpl.
    + pose proof (Rsum_nonneg es Hes). split; [lra|].
      intros Hlen. destruct es as [|b es]; [simpl in Hlen; lia|].
      assert (0 < Rsum (b :: es)) by (apply Rsum_pos; [discriminate|assumption]).
      lra.
    + destruct (IH Hin) as [Hle _]. split; [lra|]. intros _. lra.
Qed.

Lemma foldl_Rmax_init (a : R) (l : list R) : a <= foldl Rmax a l.
Proof.
  revert a. induction l as [|x l IH]; intros a; simpl.
  - lra.
  - pose proof (IH (Rmax a x)). pose proof (Rmax_l a x). lra.
Qed.

Lemma foldl_Rmax_upper (a : R) (l : list R) (x : R) :
  x ∈ l -> x <= foldl Rmax a l.
Proof.
  revert a. induction l as [|y l IH]; intros a Hin.
  - inversion Hin.
  - apply elem_of_cons in Hin as [->|Hin]; simpl.
    + pose proof (foldl_Rmax_init (Rmax a y) l). pose proof (Rmax_r a y). lra.
    + apply IH, Hin.
Qed.

Lemma foldl_Rmax_attained (a : R) (l : list R) : foldl Rmax a l ∈ a :: l.
Proof.
  revert a. induction l as [|y l IH]; intros a; simpl.
  - apply list_elem_of_here.
  - specialize (IH (Rmax a y)).
    apply elem_of_cons in IH as [Heq|Hin].
    + rewrite Heq. unfold Rmax. destruct (Rle_dec a y).
      * apply list_elem_of_further, list_elem_of_here.
      * apply list_elem_of_here.
    + apply list_elem_of_further, list_elem_of_further, Hin.
Qed.

Lemma foldl_Rmax_shift (c a : R) (l : list R) :
  foldl Rmax (a + c) (shift c l) = foldl Rmax a l + c.
Proof.
  revert a. induction l as [|y l IH]; intros a; simpl.
  - reflexivity.
  - rewrite <- IH. f_equal.
    unfold Rmax. destruct (Rle_dec (a + c) (y + c)), (Rle_dec a y); lra.
Qed.

Lemma exp_le_iff (x y : R) : x <= y <-> exp x <= exp y.
Proof.
  split; intros Hle.
  - destruct (Req_dec x y) as [->|Hne]; [lra|].
    apply Rlt_le, exp_increasing. lra.
  - destruct (Rle_or_lt x y) as [|Hlt]; [assumption|].
    apply exp_increasing in Hlt. lra.
Qed.

Lemma Rdiv_le_iff (a b s : R) : 0 < s -> (a <= b <-> a / s <= b / s).
Proof.
  intros Hs. pose proof (Rinv_0_lt_compat s Hs) as Hinv. unfold Rdiv. split.
  - intros Hab. apply Rmult_le_compat_r; lra.
  - intros Hab. apply Rmult_le_reg_r with (/ s); assumption.
Qed.

(** The closed form of [softmax] on a non-empty score vector: with [m] the
    largest score, element [i] is [exp (x_i - m)] over the sum of all the
    [exp (x_j - m)]. *)
Lemma softmax_real_closed_form (scores : list R) :
  scores <> [] ->
  exists m : R,
    m ∈ scores /\ (forall x, x ∈ scores -> x <= m) /\
    Main.softmax scores =
      Normal ((fun x => exp (x - m) / Rsum ((fun y => exp (y - m)) <$> scores))
                <$> scores).
Proof.
  intros Hne. destruct scores as [|first rest]; [congruence|].
  exists (foldl Rmax first rest). split; [apply foldl_Rmax_attained|]. split.
  - intros x Hin. apply elem_of_cons in Hin as [->|Hin].
    + apply foldl_Rmax_init.
    + apply foldl_Rmax_upper, Hin.
  - rewrite softmax_unfold. cbn [Math_max Math_exp num_sub num_add num_div RealNumber].
    rewrite foldl_Rplus_Rsum. reflexivity.
Qed.

Lemma exps_positive (m : R) (scores : list R) :
  Forall (fun e => 0 < e) ((fun y => exp (y - m)) <$> scores).
Proof. apply Forall_fmap, Forall_forall. intros x _. apply exp_pos. Qed.

End SoftmaxReal.

Section SoftmaxClaims.

#[local] Open Scope R_scope.

(** C1, as the code has it.  For every non-empty sequence of scores,
    [softmax] (in main.js and in part_000 alike) returns a sequence [probs]
    of equal length, computed as [exp (x_i - m)] divided by the sum of the
    [exp (x_j - m)], where [m] is the largest score; every element lies in
    the half-open interval (0,1], and in the open interval (0,1) when there
    are at least two scores; the elements sum to 1 in exact arithmetic, hence
    within 1e-6. *)
Theorem softmax_distribution (scores : list R) :
  scores <> [] ->
  exists (probs : list R) (m : R),
    Main.softmax scores = Normal probs /\
    Part000.softmax scores = Normal probs /\
    length probs = length scores /\
    m ∈ scores /\ (forall x, x ∈ scores -> x <= m) /\
    probs = (fun x => exp (x - m) / Rsum ((fun y => exp (y - m)) <$> scores))
              <$> scores /\
    Forall (fun p => 0 < p <= 1) probs /\
    ((2 <= length scores)%nat -> Forall (fun p => 0 < p < 1) probs) /\
    Rsum probs = 1 /\
    Rabs (Rsum probs - 1) <= 1e-6.
Proof.
  intros Hne.
  destruct (softmax_real_closed_form scores Hne) as (m & Hm & Hub & Heq).
  set (total := Rsum ((fun y => exp (y - m)) <$> scores)) in *.
  assert (Hpos : Forall (fun e => 0 < e) ((fun y => exp (y - m)) <$> scores))
    by apply exps_positive.
  assert (Htotal : 0 < total).
  { apply Rsum_pos; [|assumption]. destruct scores; [congruence|discriminate]. }
  assert (Hterm : forall x, x ∈ scores ->
            exp (x - m) <= total /\
            ((2 <= length scores)%nat -> exp (x - m) < total)).
  { intros x Hx.
    destruct (Rsum_term _ (exp (x - m)) Hpos) as [Hle Hlt].
    - apply (list_elem_of_fmap_2 (fun y => exp (y - m))), Hx.
    - split; [exact Hle|]. intros Hlen. apply Hlt. now rewrite length_fmap. }
  assert (Hsum : Rsum ((fun x => exp (x - m) / total) <$> scores) = 1).
  { rewrite (Rsum_scale (fun x => exp (x - m))). fold total. now field; lra. }
  exists ((fun x => exp (x - m) / total) <$> scores), m.
  split; [exact Heq|]. split; [rewrite softmax_part000_body; exact Heq|].
  split; [apply length_fmap|]. split; [exact Hm|]. split; [exact Hub|].
  split; [reflexivity|]. repeat split.
  - apply Forall_fmap, Forall_forall. intros x Hx. simpl.
    destruct (Hterm x Hx) as [Hle _]. pose proof (exp_pos (x - m)). split.
    + now apply Rdiv_lt_0_compat.
    + apply (Rdiv_le_iff _ _ total Htotal) in Hle.
      replace (total / total) with 1 in Hle by (field; lra). exact Hle.
  - intros Hlen. apply Forall_fmap, Forall_forall. intros x Hx. simpl.
    destruct (Hterm x Hx) as [_ Hlt]. specialize (Hlt Hlen).
    pose proof (exp_pos (x - m)). split.
    + now apply Rdiv_lt_0_compat.
    + apply Rmult_lt_reg_r with total; [assumption|].
      unfold Rdiv. rewrite Rmult_assoc, Rinv_l by lra. lra.
  - exact Hsum.
  - rewrite Hsum. replace (1 - 1) with 0 by lra. rewrite Rabs_R0. lra.
Qed.

(** The statement of C1 at the scores [0, 1]. *)
Lemma softmax_distribution_witness :
  [0; 1] <> [] /\
  exists (probs : list R) (m : R),
    Main.softmax [0; 1] = Normal probs /\
    Part000.softmax [0; 1] = Normal probs /\
    length probs = length [0; 1] /\
    m ∈ [0; 1] /\ (forall x, x ∈ [0; 1] -> x <= m) /\
    probs = (fun x => exp (x - m) / Rsum ((fun y => exp (y - m)) <$> [0; 1]))
              <$> [0; 1] /\
    Forall (fun p => 0 < p <= 1) probs /\
    ((2 <= length [0; 1])%nat -> Forall (fun p => 0 < p < 1) probs) /\
    Rsum probs = 1 /\
    Rabs (Rsum probs - 1) <= 1e-6.
Proof.
  split; [discriminate|]. apply (softmax_distribution [0; 1]). discriminate.
Defined.

(** C1, as stated, fails on a score vector of one element: [softmax [0]] is
    [[1]], and 1 is not inside the open interval (0,1). *)
Lemma softmax_singleton_not_open :
  [0] <> [] /\
  Main.softmax [0] = Normal [1] /\
  Part000.softmax [0] = Normal [1] /\
  ~ open_unit_distribution [0] [1].
Proof.
  assert (Heq : Main.softmax [0] = Normal [1]).
  { rewrite softmax_unfold.
    cbn [Math_max Math_exp num_sub num_add num_div RealNumber foldl fmap list_fmap].
    replace (0 - 0) with 0 by lra. rewrite exp_0.
    do 2 f_equal. field. }
  split; [discriminate|]. split; [exact Heq|].
  split; [rewrite softmax_part000_body; exact Heq|].
  intros (_ & Hopen & _). apply Forall_cons in Hopen as [[_ Hlt] _]. lra.
Qed.

(** In binary64 the closed ends of the unit interval are reached as well: a
    single score gives [[1]], and a score of [-Infinity] next to a finite one
    gives probability [0]. *)
Lemma softmax_binary64_unit_ends :
  Main.softmax [Exactly 0%float] = Normal [Exactly 1%float] /\
  Main.softmax [Exactly 1%float; Exactly neg_infinity] =
    Normal [Exactly 1%float; Exactly 0%float].
Proof. split; vm_compute; reflexivity. Qed.

(** C5, as stated, fails in binary64: adding [2 ** 1023] to the score
    [2 ** 1023] overflows to [Infinity], [Infinity - Infinity] is NaN, and
    [softmax] returns [[NaN]], while on the score itself it returns [[1]].
    Every value in the two runs is fixed by IEEE 754 and ECMAScript. *)
Lemma softmax_shift_overflow :
  shift (Exactly two_to_1023) [Exactly two_to_1023] = [Exactly infinity] /\
  Main.softmax (shift (Exactly two_to_1023) [Exactly two_to_1023]) =
    Normal [Exactly nan] /\
  Main.softmax [Exactly two_to_1023] = Normal [Exactly 1%float] /\
  Part000.softmax (shift (Exactly two_to_1023) [Exactly two_to_1023]) =
    Normal [Exactly nan] /\
  Part000.softmax [Exactly two_to_1023] = Normal [Exactly 1%float] /\
  Main.softmax (shift (Exactly two_to_1023) [Exactly two_to_1023]) <>
    Main.softmax [Exactly two_to_1023].
Proof.
  repeat split; try (vm_compute; reflexivity).
  intros Heq.
  apply (f_equal (fun completion =>
                    match completion with
                    | Normal [Exactly value] => is_nan value
                    | _ => false
                    end)) in Heq.
  vm_compute in Heq. discriminate.
Qed.

(** C5, as the code has it.  In exact arithmetic [softmax] is
    shift-invariant: adding a constant [c] to every element of a score
    vector [x] does not change the result. *)
Theorem softmax_shift_invariant :
  forall (x : list R) (c : R),
    Main.softmax (shift c x) = Main.softmax x /\
    Part000.softmax (shift c x) = Part000.softmax x.
Proof.
  assert (Hmain : forall (x : list R) (c : R),
             Main.softmax (shift c x) = Main.softmax x).
  { intros [|first rest] c; [reflexivity|].
    unfold shift. rewrite fmap_cons. fold (shift c rest).
    rewrite !softmax_unfold.
    cbn [Math_max Math_exp num_sub num_add num_div RealNumber].
    rewrite foldl_Rmax_shift. set (m := foldl Rmax first rest).
    assert (Hexp : forall y, exp (y + c - (m + c)) = exp (y - m))
      by (intros y; f_equal; lra).
    assert (Hexps : (fun y => exp (y - (m + c))) <$> shift c rest =
                    (fun y => exp (y - m)) <$> rest).
    { unfold shift. rewrite <- list_fmap_compose.
      apply list_fmap_ext. intros i y _. apply Hexp. }
    rewrite Hexps, Hexp. f_equal.
    change (first + c :: shift c rest) with (shift c (first :: rest)).
    unfold shift at 1. rewrite <- list_fmap_compose.
    apply list_fmap_ext. intros i y _. simpl. now rewrite Hexp. }
  intros x c. split; [apply Hmain|].
  rewrite !softmax_part000_body. apply Hmain.
Qed.

(** C9. [softmax] preserves order in exact arithmetic: on a non-empty score
    vector it returns a sequence [probs] with an element at every index of
    the scores, and for all indices [i], [j] the score at [i] is at most the
    score at [j] exactly when the probability at [i] is at most the one at
    [j]. *)
Theorem softmax_order_preserving (scores : list R) :
  scores <> [] ->
  exists probs : list R,
    Main.softmax scores = Normal probs /\
    Part000.softmax scores = Normal probs /\
    forall (i j : nat) (si sj : R),
      scores !! i = Some si -> scores !! j = Some sj ->
      exists pi pj : R,
        probs !! i = Some pi /\ probs !! j = Some pj /\
        (si <= sj <-> pi <= pj).
Proof.
  intros Hne.
  destruct (softmax_real_closed_form scores Hne) as (m & _ & _ & Heq).
  set (total := Rsum ((fun y => exp (y - m)) <$> scores)) in *.
  assert (Htotal : 0 < total).
  { apply Rsum_pos; [|apply exps_positive].
    destruct scores; [congruence|discriminate]. }
  eexists. split; [exact Heq|].
  split; [rewrite softmax_part000_body; exact Heq|].
  intros i j si sj Hi Hj.
  exists (exp (si - m) / total), (exp (sj - m) / total).
  rewrite !list_lookup_fmap, Hi, Hj. do 2 (split; [reflexivity|]).
  rewrite <- (Rdiv_le_iff _ _ total Htotal), <- exp_le_iff. split; intros; lra.
Qed.

(** The statement of C9 at the scores [0, 1]. *)
Lemma softmax_order_preserving_witness :
  [0; 1] <> [] /\
  exists probs : list R,
    Main.softmax [0; 1] = Normal probs /\
    Part000.softmax [0; 1] = Normal probs /\
    forall (i j : nat) (si sj : R),
      [0; 1] !! i = Some si -> [0; 1] !! j = Some sj ->
      exists pi pj : R,
        probs !! i = Some pi /\ probs !! j = Some pj /\
        (si <= sj <-> pi <= pj).
Proof.
  split; [discriminate|]. apply (softmax_order_preserving [0; 1]). discriminate.
Defined.

End SoftmaxClaims.

(* ===================================================================== *)
(** * The conversion loop *)
(* ===================================================================== *)

Section ConversionLoop.

Variable buffer : list Byte.byte.
Variable pixelCount : nat.

Lemma store_pixel_length (i : nat) (arr : list float) :
  length (store_pixel buffer pixelCount i arr) = length arr.
Proof. unfold store_pixel, Float32Array_set. now rewrite !length_insert. Qed.

Lemma store_pixel_lookup (i : nat) (arr : list float) (c j : nat) :
  length arr = 3 * pixelCount -> i < pixelCount -> c < 3 -> j < pixelCount ->
  store_pixel buffer pixelCount i arr !! (pixelCount * c + j) =
    if decide (j = i) then Some (written buffer c i) else arr !! (pixelCount * c + j).
Proof.
  intros Hlen Hi Hc Hj. unfold store_pixel, Float32Array_set, written.
  rewrite !list_lookup_insert, !length_insert.
  assert (Hc' : c = 0 \/ c = 1 \/ c = 2) by lia.
  destruct Hc' as [-> | [-> | ->] ];
    repeat case_decide; subst; try reflexivity; exfalso; lia.
Qed.

(** The state of the array after [n] turns of the loop: the first [n] pixels
    are written in the three planes, the rest is still zero. *)
Lemma for_loop_store_pixel (n : nat) :
  n <= pixelCount ->
  let arr := for_loop n (store_pixel buffer pixelCount)
               (Float32Array (3 * pixelCount)) in
  length arr = 3 * pixelCount /\
  forall c j, c < 3 -> j < pixelCount ->
    arr !! (pixelCount * c + j) =
      Some (if decide (j < n) then written buffer c j else 0%float).
Proof.
  unfold for_loop. induction n as [|n IH]; intros Hn; cbv zeta.
  - cbn [seq foldl]. split; [apply length_replicate|].
    intros c j Hc Hj. case_decide; [lia|].
    apply lookup_replicate_2. nia.
  - destruct IH as [Hlen Hlookup]; [lia|].
    rewrite seq_S, foldl_snoc. cbn [Nat.add]. split.
    + now rewrite store_pixel_length.
    + intros c j Hc Hj.
      rewrite store_pixel_lookup by (assumption || lia).
      rewrite Hlookup by assumption.
      repeat case_decide; subst; try reflexivity; lia.
Qed.

End ConversionLoop.

Lemma interleaved_length (pixels : list Pixel) :
  length (interleaved pixels) = 4 * length pixels.
Proof. induction pixels as [|p rest IH]; simpl; lia. Qed.

Lemma interleaved_lookup (pixels : list Pixel) (i : nat) (p : Pixel) :
  pixels !! i = Some p ->
  interleaved pixels !! (i * 4 + 0) = Some (red p) /\
  interleaved pixels !! (i * 4 + 1) = Some (green p) /\
  interleaved pixels !! (i * 4 + 2) = Some (blue p) /\
  interleaved pixels !! (i * 4 + 3) = Some (alpha p).
Proof.
  revert i. induction pixels as [|q rest IH]; intros i Hi; [discriminate|].
  destruct i as [|i].
  - injection Hi as ->. repeat split.
  - apply (IH i Hi).
Qed.

(** A list of the right length whose three planes hold the normalised
    channels is the planar layout. *)
Lemma planar_characterised (pixels : list Pixel) (arr : list float) :
  length arr = 3 * length pixels ->
  (forall c j, c < 3 -> j < length pixels ->
     arr !! (length pixels * c + j) =
       Some (written (interleaved pixels) c j)) ->
  arr = planar pixels.
Proof.
  intros Hlen Hlookup.
  apply (list_eq_same_length _ _ (3 * length pixels)); [|assumption|].
  { unfold planar. rewrite !length_app, !length_fmap. lia. }
  intros k x y Hk Hx Hy.
  assert (Hcases : exists c j, c < 3 /\ j < length pixels /\
                               k = length pixels * c + j).
  { destruct (decide (k < length pixels)); [exists 0, k; lia|].
    destruct (decide (k < 2 * length pixels)).
    - exists 1, (k - length pixels). lia.
    - exists 2, (k - 2 * length pixels). lia. }
  destruct Hcases as (c & j & Hc & Hj & ->).
  rewrite Hlookup in Hx by assumption. injection Hx as <-.
  destruct (lookup_lt_is_Some_2 pixels j Hj) as [p Hp].
  destruct (interleaved_lookup pixels j p Hp) as (Hr & Hg & Hb & _).
  unfold planar in Hy. unfold written.
  assert (Hc' : c = 0 \/ c = 1 \/ c = 2) by lia.
  destruct Hc' as [-> | [-> | ->] ].
  - rewrite lookup_app_l in Hy by (rewrite length_fmap; lia).
    rewrite list_lookup_fmap in Hy.
    replace (length pixels * 0 + j) with j in Hy by lia.
    rewrite Hp in Hy. injection Hy as <-. now rewrite Hr.
  - rewrite lookup_app_r in Hy by (rewrite length_fmap; lia).
    rewrite lookup_app_l in Hy by (rewrite !length_fmap; lia).
    rewrite list_lookup_fmap, length_fmap in Hy.
    replace (length pixels * 1 + j - length pixels) with j in Hy by lia.
    rewrite Hp in Hy. injection Hy as <-. now rewrite Hg.
  - rewrite lookup_app_r in Hy by (rewrite length_fmap; lia).
    rewrite lookup_app_r in Hy by (rewrite !length_fmap; lia).
    rewrite list_lookup_fmap, !length_fmap in Hy.
    replace (length pixels * 2 + j - length pixels - length pixels)
      with j in Hy by lia.
    rewrite Hp in Hy. injection Hy as <-. now rewrite Hb.
Qed.

(* ===================================================================== *)
(** * The pre-processor *)
(* ===================================================================== *)

Lemma written_outside (buffer : list Byte.byte) (c i : nat) :
  buffer !! (i * 4 + c) = None -> written buffer c i = nan.
Proof. intros Hnone. unfold written. rewrite Hnone. reflexivity. Qed.

Lemma written_inside (buffer : list Byte.byte) (c i : nat) (b : Byte.byte) :
  buffer !! (i * 4 + c) = Some b ->
  written buffer c i = fround (Number_of_byte b / 255)%float.
Proof. intros Hsome. unfold written. rewrite Hsome. reflexivity. Qed.


(** What [Main.imageDataToTensor] returns, plane by plane. *)
Lemma imageDataToTensor_lookup (image : Image) :
  let pixelCount := image_width image * image_height image in
  exists tensor : Tensor,
    Main.imageDataToTensor image = Normal tensor /\
    tensor_type tensor = "float32"%string /\
    tensor_dims tensor = [1; 3; image_height image; image_width image] /\
    length (tensor_data tensor) = 3 * pixelCount /\
    forall c i, c < 3 -> i < pixelCount ->
      tensor_data tensor !! (pixelCount * c + i) =
        Some (written (image_data image) c i).
Proof.
  intros pixelCount. eexists. split; [reflexivity|].
  split; [reflexivity|]. split; [reflexivity|].
  cbn [tensor_data]. fold pixelCount.
  destruct (for_loop_store_pixel (image_data image) pixelCount pixelCount)
    as [Hlen Hlookup]; [lia|].
  split; [exact Hlen|]. intros c i Hc Hi.
  rewrite Hlookup by assumption. now case_decide.
Qed.

(** The two sources run the same loop: part_000 on the buffer that the
    canvas hands back, main.js on the buffer of the image. *)
Lemma imageDataToTensor_part000_eq_main
  (resizeImageData : Image -> nat -> nat -> list Byte.byte)
  (imageData : Image) (targetWidth targetHeight : nat) :
  Part000.imageDataToTensor resizeImageData imageData targetWidth targetHeight =
  Main.imageDataToTensor
    {| image_data := resizeImageData imageData targetWidth targetHeight;
       image_width := targetWidth; image_height := targetHeight |}.
Proof. reflexivity. Qed.

(** C3, as the code has it.  The pre-processor never checks the length of
    the pixel buffer and never fails: for every image, whatever the length
    of its buffer, [imageDataToTensor] returns a tensor of dimensions
    [1, 3, height, width] with [3 * width * height] elements; the element of
    channel [c] and pixel [i] is the binary32 value of
    [buffer[i * 4 + c] / 255] when that byte exists and NaN when the buffer
    is too short to hold it; bytes past [width * height * 4] are never read.
    The same holds in part_000 for the buffer returned by the canvas. *)
Theorem imageDataToTensor_never_rejects :
  forall image : Image,
    let pixelCount := image_width image * image_height image in
    exists tensor : Tensor,
      Main.imageDataToTensor image = Normal tensor /\
      (forall resizeImageData imageData,
          resizeImageData imageData (image_width image) (image_height image) =
            image_data image ->
          Part000.imageDataToTensor resizeImageData imageData
            (image_width image) (image_height image) = Normal tensor) /\
      tensor_dims tensor = [1; 3; image_height image; image_width image] /\
      length (tensor_data tensor) = 3 * pixelCount /\
      (forall c i, c < 3 -> i < pixelCount ->
         tensor_data tensor !! (pixelCount * c + i) =
           Some match image_data image !! (i * 4 + c) with
                | Some byte => fround (Number_of_byte byte / 255)%float
                | None => nan
                end) /\
      (forall longer : list Byte.byte,
         take (pixelCount * 4) longer = take (pixelCount * 4) (image_data image) ->
         Main.imageDataToTensor
           {| image_data := longer; image_width := image_width image;
              image_height := image_height image |} = Normal tensor).
Proof.
  intros image pixelCount.
  destruct (imageDataToTensor_lookup image)
    as (tensor & Hrun & Htype & Hdims & Hlen & Hlookup).
  fold pixelCount in Hlen, Hlookup.
  exists tensor. split; [exact Hrun|]. split.
  { intros resize imageData Hresize.
    rewrite imageDataToTensor_part000_eq_main, Hresize.
    destruct image; exact Hrun. }
  split; [exact Hdims|]. split; [exact Hlen|]. split.
  - intros c i Hc Hi. rewrite Hlookup by assumption. f_equal.
    destruct (image_data image !! (i * 4 + c)) as [b|] eqn:Hread.
    + now apply written_inside.
    + now apply written_outside.
  - intros longer Hsame.
    destruct (imageDataToTensor_lookup
                {| image_data := longer; image_width := image_width image;
                   image_height := image_height image |})
      as (tensor' & Hrun' & Htype' & Hdims' & Hlen' & Hlookup').
    cbn [image_width image_height image_data] in Hlen', Hlookup', Hdims'.
    fold pixelCount in Hlen', Hlookup'.
    rewrite Hrun'. f_equal.
    assert (Hdata : tensor_data tensor' = tensor_data tensor).
    { apply (list_eq_same_length _ _ (3 * pixelCount)); [assumption..|].
      intros k x y Hk Hx Hy.
      assert (Hcases : exists c j, c < 3 /\ j < pixelCount /\
                                   k = pixelCount * c + j).
      { destruct (decide (k < pixelCount)); [exists 0, k; lia|].
        destruct (decide (k < 2 * pixelCount)).
        - exists 1, (k - pixelCount). lia.
        - exists 2, (k - 2 * pixelCount). lia. }
      destruct Hcases as (c & j & Hc & Hj & ->).
      rewrite Hlookup' in Hx by assumption.
      rewrite Hlookup in Hy by assumption.
      injection Hx as <-. injection Hy as <-. unfold written.
      assert (Hread : longer !! (j * 4 + c) = image_data image !! (j * 4 + c)).
      { rewrite <- (lookup_take_lt longer (pixelCount * 4)) by lia.
        rewrite <- (lookup_take_lt (image_data image) (pixelCount * 4)) by lia.
        now rewrite Hsame. }
      now rewrite Hread. }
    destruct tensor, tensor'. cbn in Htype, Htype', Hdims, Hdims', Hdata.
    congruence.
Qed.

(** C3, as stated, fails: a 1x1 image whose buffer holds one byte instead of
    four is converted without any error, the missing green and blue becoming
    NaN; a 1x1 image whose buffer holds five bytes is converted too, its
    fifth byte left unread. *)
Lemma imageDataToTensor_accepts_mismatch :
  length (image_data short_image) <>
    image_width short_image * image_height short_image * 4 /\
  Main.imageDataToTensor short_image =
    Normal {| tensor_type := "float32";
              tensor_data := [1; nan; nan]%float;
              tensor_dims := [1; 3; 1; 1] |} /\
  length (image_data long_image) <>
    image_width long_image * image_height long_image * 4 /\
  Main.imageDataToTensor long_image =
    Normal {| tensor_type := "float32";
              tensor_data := [1; 0; 1]%float;
              tensor_dims := [1; 3; 1; 1] |}.
Proof.
  split; [cbn; lia|]. split; [vm_compute; reflexivity|].
  split; [cbn; lia|]. vm_compute; reflexivity.
Qed.

(** On a buffer that holds exactly the pixels of the image, the result is
    the planar layout of the pixels. *)
Lemma imageDataToTensor_of_pixels (pixels : list Pixel) (width height : nat) :
  width * height = length pixels ->
  Main.imageDataToTensor
    {| image_data := interleaved pixels;
       image_width := width; image_height := height |} =
    Normal {| tensor_type := "float32"; tensor_data := planar pixels;
              tensor_dims := [1; 3; height; width] |}.
Proof.
  intros Hsize.
  destruct (imageDataToTensor_lookup
              {| image_data := interleaved pixels;
                 image_width := width; image_height := height |})
    as (tensor & Hrun & Htype & Hdims & Hlen & Hlookup).
  cbn [image_width image_height image_data] in Hdims, Hlen, Hlookup.
  rewrite Hsize in Hlen, Hlookup.
  rewrite Hrun. f_equal. destruct tensor as [type data dims].
  cbn in Htype, Hdims, Hlen, Hlookup. subst type dims. f_equal.
  now apply planar_characterised.
Qed.

(** The planar layout does not look at alpha. *)
Lemma planar_rgb (pixels pixels' : list Pixel) :
  (fun p => (red p, green p, blue p)) <$> pixels' =
  (fun p => (red p, green p, blue p)) <$> pixels ->
  planar pixels' = planar pixels.
Proof.
  intros Hrgb. unfold planar.
  change (fun p => fround (Number_of_byte (red p) / 255)%float)
    with ((fun t : Byte.byte * Byte.byte * Byte.byte =>
             fround (Number_of_byte t.1.1 / 255)%float)
          ∘ (fun p => (red p, green p, blue p))).
  change (fun p => fround (Number_of_byte (green p) / 255)%float)
    with ((fun t : Byte.byte * Byte.byte * Byte.byte =>
             fround (Number_of_byte t.1.2 / 255)%float)
          ∘ (fun p => (red p, green p, blue p))).
  change (fun p => fround (Number_of_byte (blue p) / 255)%float)
    with ((fun t : Byte.byte * Byte.byte * Byte.byte =>
             fround (Number_of_byte t.2 / 255)%float)
          ∘ (fun p => (red p, green p, blue p))).
  rewrite !list_fmap_compose. now rewrite Hrgb.
Qed.

(** C4. For every sequence of RGBA pixels that fills a [width * height]
    image (so that nothing is resampled), the pre-processor returns a float
    array of length [3 * pixelCount] in channel-planar layout: position
    [0 * pixelCount + i] holds [red_i / 255.0], position [1 * pixelCount + i]
    holds [green_i / 255.0] and position [2 * pixelCount + i] holds
    [blue_i / 255.0], each as the binary32 value a [Float32Array] stores;
    alpha is discarded: pixels with the same red, green and blue give the
    same tensor.  part_000 returns the same tensor when the canvas hands back
    the same buffer.  In particular the 2x2 image red, green, blue, white
    gives [1,0,0,1, 0,1,0,1, 0,0,1,1]. *)
Theorem imageDataToTensor_planar :
  (forall (pixels : list Pixel) (width height : nat),
      width * height = length pixels ->
      let pixelCount := length pixels in
      exists tensor : Tensor,
        Main.imageDataToTensor
          {| image_data := interleaved pixels;
             image_width := width; image_height := height |} = Normal tensor /\
        (forall resizeImageData imageData,
            resizeImageData imageData width height = interleaved pixels ->
            Part000.imageDataToTensor resizeImageData imageData width height =
              Normal tensor) /\
        length (tensor_data tensor) = 3 * pixelCount /\
        (forall (i : nat) (p : Pixel),
            pixels !! i = Some p ->
            tensor_data tensor !! (0 * pixelCount + i) =
              Some (fround (Number_of_byte (red p) / 255)%float) /\
            tensor_data tensor !! (1 * pixelCount + i) =
              Some (fround (Number_of_byte (green p) / 255)%float) /\
            tensor_data tensor !! (2 * pixelCount + i) =
              Some (fround (Number_of_byte (blue p) / 255)%float)) /\
        (forall pixels' : list Pixel,
            (fun p => (red p, green p, blue p)) <$> pixels' =
            (fun p => (red p, green p, blue p)) <$> pixels ->
            Main.imageDataToTensor
              {| image_data := interleaved pixels';
                 image_width := width; image_height := height |} =
              Normal tensor)) /\
  Main.imageDataToTensor example_image =
    Normal {| tensor_type := "float32";
              tensor_data := [1; 0; 0; 1;  0; 1; 0; 1;  0; 0; 1; 1]%float;
              tensor_dims := [1; 3; 2; 2] |}.
Proof.
  split; [|vm_compute; reflexivity].
  intros pixels width height Hsize pixelCount.
  set (image := {| image_data := interleaved pixels;
                   image_width := width; image_height := height |}).
  destruct (imageDataToTensor_lookup image)
    as (tensor & Hrun & _ & _ & Hlen & Hlookup).
  cbn [image image_width image_height image_data] in Hlen, Hlookup.
  rewrite Hsize in Hlen, Hlookup. fold pixelCount in Hlen, Hlookup.
  exists tensor. split; [exact Hrun|]. split.
  { intros resize imageData Hresize.
    rewrite imageDataToTensor_part000_eq_main, Hresize. exact Hrun. }
  split; [exact Hlen|]. split.
  - intros i p Hp.
    assert (Hi : i < pixelCount) by (eapply lookup_lt_Some; exact Hp).
    destruct (interleaved_lookup pixels i p Hp) as (Hr & Hg & Hb & _).
    replace (0 * pixelCount + i) with (pixelCount * 0 + i) by lia.
    replace (1 * pixelCount + i) with (pixelCount * 1 + i) by lia.
    replace (2 * pixelCount + i) with (pixelCount * 2 + i) by lia.
    rewrite !Hlookup by lia.
    now rewrite (written_inside _ _ _ _ Hr), (written_inside _ _ _ _ Hg),
      (written_inside _ _ _ _ Hb).
  - intros pixels' Hrgb.
    assert (Hsize' : width * height = length pixels').
    { rewrite Hsize. apply (f_equal length) in Hrgb.
      now rewrite !length_fmap in Hrgb. }
    rewrite (imageDataToTensor_of_pixels pixels' width height Hsize').
    rewrite (planar_rgb pixels pixels' Hrgb).
    rewrite <- (imageDataToTensor_of_pixels pixels width height Hsize).
    exact Hrun.
Qed.

(** The statement of C4 at the four pixels of the example. *)
Lemma imageDataToTensor_planar_witness :
  2 * 2 = length example_pixels /\
  exists tensor : Tensor,
    Main.imageDataToTensor
      {| image_data := interleaved example_pixels;
         image_width := 2; image_height := 2 |} = Normal tensor /\
    (forall resizeImageData imageData,
        resizeImageData imageData 2 2 = interleaved example_pixels ->
        Part000.imageDataToTensor resizeImageData imageData 2 2 =
          Normal tensor) /\
    length (tensor_data tensor) = 3 * length example_pixels /\
    (forall (i : nat) (p : Pixel),
        example_pixels !! i = Some p ->
        tensor_data tensor !! (0 * length example_pixels + i) =
          Some (fround (Number_of_byte (red p) / 255)%float) /\
        tensor_data tensor !! (1 * length example_pixels + i) =
          Some (fround (Number_of_byte (green p) / 255)%float) /\
        tensor_data tensor !! (2 * length example_pixels + i) =
          Some (fround (Number_of_byte (blue p) / 255)%float)) /\
    (forall pixels' : list Pixel,
        (fun p => (red p, green p, blue p)) <$> pixels' =
        (fun p => (red p, green p, blue p)) <$> example_pixels ->
        Main.imageDataToTensor
          {| image_data := interleaved pixels';
             image_width := 2; image_height := 2 |} =
          Normal tensor).
Proof.
  split; [reflexivity|].
  apply (proj1 imageDataToTensor_planar example_pixels 2 2). reflexivity.
Defined.

(* ===================================================================== *)
(** * The sort is a stable sort *)
(* ===================================================================== *)

Section Lists.

Context {A : Type}.

Lemma StronglySorted_lookup (R : relation A) (l : list A) (i j : nat) (a b : A) :
  StronglySorted R l -> i < j -> l !! i = Some a -> l !! j = Some b -> R a b.
Proof.
  intros Hsorted. revert i j.
  induction Hsorted as [|x l _ IH Hall]; intros i j Hlt Hi Hj; [discriminate|].
  destruct j as [|j]; [lia|]. destruct i as [|i].
  - injection Hi as <-. rewrite Forall_forall in Hall.
    apply Hall. eapply list_elem_of_lookup_2. exact Hj.
  - apply (IH i j); [lia|assumption..].
Qed.

Lemma StronglySorted_of_lookup (R : relation A) (l : list A) :
  (forall i j a b, i < j -> l !! i = Some a -> l !! j = Some b -> R a b) ->
  StronglySorted R l.
Proof.
  induction l as [|x l IH]; intros Hlookup; constructor.
  - apply IH. intros i j a b Hlt Hi Hj. apply (Hlookup (S i) (S j)); [lia|assumption..].
  - apply Forall_forall. intros y Hy.
    apply list_elem_of_lookup_1 in Hy as [j Hj].
    apply (Hlookup 0 (S j)); [lia|reflexivity|assumption].
Qed.

Lemma StronglySorted_take (R : relation A) (l : list A) (k : nat) :
  StronglySorted R l -> StronglySorted R (take k l).
Proof.
  intros Hsorted. rewrite <- (take_drop k l) in Hsorted.
  now apply StronglySorted_app_1_l in Hsorted.
Qed.

Lemma StronglySorted_rev (R : relation A) (l : list A) :
  StronglySorted R l -> StronglySorted (flip R) (rev l).
Proof.
  induction 1 as [|x l _ IH Hall]; [constructor|].
  cbn [rev]. apply StronglySorted_app_2; [|assumption|repeat constructor].
  intros y z Hy Hz. apply list_elem_of_singleton in Hz as ->.
  rewrite Forall_forall in Hall. apply Hall.
  now apply list_elem_of_In, in_rev, list_elem_of_In in Hy.
Qed.

End Lists.

Section StableSort.

Context {A : Type}.
Variable comparefn : A -> A -> Q.
Variable leb : A -> A -> bool.
Variable position : A -> nat.

(** The comparator sends [x] behind [y] exactly when [x] is not before or
    level with [y] in the key order, which is total and transitive. *)
Hypothesis comparefn_leb :
  forall x y, Q_ltb 0 (comparefn x y) = negb (leb x y).
Hypothesis leb_total : forall x y, leb x y = true \/ leb y x = true.
Hypothesis leb_trans :
  forall x y z, leb x y = true -> leb y z = true -> leb x z = true.

Lemma sort_insert_perm (x : A) (l : list A) :
  sort_insert comparefn x l ≡ₚ x :: l.
Proof using Type.
  induction l as [|y l IH]; [reflexivity|]. cbn [sort_insert].
  destruct (Q_ltb 0 (comparefn x y)); [|reflexivity].
  rewrite IH. apply Permutation_swap.
Qed.

Lemma Array_sort_perm (l : list A) : Array_sort comparefn l ≡ₚ l.
Proof using Type.
  unfold Array_sort. induction l as [|x l IH]; [reflexivity|].
  cbn [foldr]. now rewrite sort_insert_perm, IH.
Qed.

Lemma sort_insert_sorted (x : A) (l : list A) :
  StronglySorted (stably_before leb position) l ->
  Forall (fun y => position x < position y) l ->
  StronglySorted (stably_before leb position) (sort_insert comparefn x l).
Proof using comparefn_leb leb_total leb_trans.
  induction 1 as [|y l Hsorted IH Hall]; intros Hpos.
  - repeat constructor.
  - apply Forall_cons in Hpos as [Hxy Hpos]. cbn [sort_insert].
    rewrite comparefn_leb. destruct (leb x y) eqn:Hleb; cbn [negb].
    + constructor; [now constructor|]. constructor.
      * split; [assumption|]. intros _. exact Hxy.
      * rewrite Forall_forall in Hall, Hpos |- *. intros z Hz.
        destruct (Hall z Hz) as [Hyz _]. split.
        -- now apply (leb_trans x y z).
        -- intros _. now apply Hpos.
    + constructor; [now apply IH|].
      rewrite sort_insert_perm. constructor; [|assumption]. split.
      * destruct (leb_total x y); [congruence|assumption].
      * intros Habs. congruence.
Qed.

(** Sorting an array whose entries carry their position leaves it ordered by
    the key, entries with tied keys in their original order. *)
Lemma Array_sort_stable (l : list A) :
  StronglySorted (fun a b => position a < position b) l ->
  StronglySorted (stably_before leb position) (Array_sort comparefn l).
Proof using comparefn_leb leb_total leb_trans.
  unfold Array_sort. induction 1 as [|x l _ IH Hall]; [constructor|].
  cbn [foldr]. apply sort_insert_sorted; [assumption|].
  fold (Array_sort comparefn l). now rewrite Array_sort_perm.
Qed.

End StableSort.

(* ===================================================================== *)
(** * The two key orders *)
(* ===================================================================== *)

Lemma Q_ltb_spec (x y : Q) : Q_ltb x y = true <-> (x < y)%Q.
Proof.
  unfold Q_ltb. rewrite negb_true_iff, <- not_true_iff_false, Qle_bool_iff.
  split; [apply Qnot_le_lt|apply Qlt_not_le].
Qed.

Lemma Q_ltb_negb (x y : Q) : Q_ltb x y = negb (Qle_bool y x).
Proof. reflexivity. Qed.

Lemma Qle_bool_total (x y : Q) : Qle_bool x y = true \/ Qle_bool y x = true.
Proof.
  rewrite !Qle_bool_iff. destruct (Qlt_le_dec x y) as [Hlt|Hle].
  - left. now apply Qlt_le_weak.
  - now right.
Qed.

Lemma Qle_bool_trans (x y z : Q) :
  Qle_bool x y = true -> Qle_bool y z = true -> Qle_bool x z = true.
Proof. rewrite !Qle_bool_iff. apply Qle_trans. Qed.

(** The comparator of [getTopK], [(a, b) => b[0] - a[0]], sorts by
    [larger_first]. *)
Lemma getTopK_comparator (a b : Q * nat) :
  Q_ltb 0 (b.1 - a.1) = negb (larger_first a b).
Proof.
  unfold larger_first, Q_ltb. f_equal.
  apply eq_true_iff_eq. rewrite !Qle_bool_iff. split; intros; Lqa.lra.
Qed.

(** The comparator of [_.sortBy] on the probability sorts by
    [smaller_first]. *)
Lemma sortBy_comparator (a b : Q * nat) :
  Q_ltb 0 (compareAscending a.1 b.1) = negb (smaller_first a b).
Proof.
  unfold smaller_first, compareAscending.
  rewrite (Q_ltb_negb b.1 a.1).
  destruct (Qle_bool a.1 b.1) eqn:Hle; cbn [negb]; [|reflexivity].
  destruct (Q_ltb a.1 b.1); reflexivity.
Qed.

Lemma larger_first_total (a b : Q * nat) :
  larger_first a b = true \/ larger_first b a = true.
Proof. unfold larger_first. destruct (Qle_bool_total b.1 a.1); auto. Qed.

Lemma larger_first_trans (a b c : Q * nat) :
  larger_first a b = true -> larger_first b c = true -> larger_first a c = true.
Proof. unfold larger_first. intros Hab Hbc. now apply (Qle_bool_trans _ b.1). Qed.

Lemma smaller_first_total (a b : Q * nat) :
  smaller_first a b = true \/ smaller_first b a = true.
Proof. unfold smaller_first. apply Qle_bool_total. Qed.

Lemma smaller_first_trans (a b c : Q * nat) :
  smaller_first a b = true -> smaller_first b c = true ->
  smaller_first a c = true.
Proof. unfold smaller_first. apply Qle_bool_trans. Qed.

(* ===================================================================== *)
(** * Probabilities paired with their indices *)
(* ===================================================================== *)

Lemma indexed_lookup (probs : list Q) (i : nat) :
  indexed probs !! i = (fun prob => (prob, i)) <$> probs !! i.
Proof. unfold indexed, Array_map. apply list_lookup_imap. Qed.

Lemma indexed_length (probs : list Q) : length (indexed probs) = length probs.
Proof. apply Array_map_length. Qed.

Lemma indexed_elem (probs : list Q) (entry : Q * nat) :
  entry ∈ indexed probs <-> probs !! entry.2 = Some entry.1.
Proof.
  rewrite list_elem_of_lookup. setoid_rewrite indexed_lookup. split.
  - intros [i Hi]. destruct (probs !! i) as [p|] eqn:Hp; [|discriminate].
    injection Hi as <-. exact Hp.
  - intros Hp. exists entry.2. rewrite Hp. now destruct entry.
Qed.

Lemma indexed_positions (probs : list Q) :
  StronglySorted (fun a b : Q * nat => a.2 < b.2) (indexed probs).
Proof.
  apply StronglySorted_of_lookup. intros i j a b Hlt Hi Hj.
  rewrite indexed_lookup in Hi, Hj.
  destruct (probs !! i); [|discriminate]. destruct (probs !! j); [|discriminate].
  injection Hi as <-. injection Hj as <-. exact Hlt.
Qed.

Lemma indexed_indices (probs : list Q) :
  snd <$> indexed probs = seq 0 (length probs).
Proof.
  apply list_eq. intros i. rewrite list_lookup_fmap, indexed_lookup.
  destruct (probs !! i) as [p|] eqn:Hp; cbn.
  - apply lookup_lt_Some in Hp. now rewrite lookup_seq_lt.
  - apply lookup_ge_None in Hp. now rewrite lookup_seq_ge.
Qed.

(* ===================================================================== *)
(** * getTopK (part_000) *)
(* ===================================================================== *)

Lemma getTopK_unfold (probs : list Q) (k : nat) :
  Part000.getTopK probs k =
    prediction_of <$>
      take k (Array_sort (fun a b : Q * nat => (b.1 - a.1)%Q) (indexed probs)).
Proof.
  unfold Part000.getTopK, Array_slice0. fold (indexed probs).
  rewrite <- (Array_map_ignores_index prediction_of).
  unfold Array_map. apply imap_ext. intros i [p m] _. reflexivity.
Qed.

Lemma getTopK_sorted_pairs (probs : list Q) :
  StronglySorted (stably_before larger_first snd)
    (Array_sort (fun a b : Q * nat => (b.1 - a.1)%Q) (indexed probs)).
Proof.
  apply Array_sort_stable.
  - exact getTopK_comparator.
  - exact larger_first_total.
  - exact larger_first_trans.
  - apply indexed_positions.
Qed.

Lemma getTopK_elem (probs : list Q) (k : nat) (prediction : Part000.Prediction) :
  prediction ∈ Part000.getTopK probs k ->
  exists entry : Q * nat,
    prediction = prediction_of entry /\ probs !! entry.2 = Some entry.1.
Proof.
  rewrite getTopK_unfold. intros Hin.
  apply list_elem_of_fmap in Hin as (entry & -> & Hin).
  exists entry. split; [reflexivity|].
  apply elem_of_take in Hin as (i & Hi & _).
  apply list_elem_of_lookup_2 in Hi.
  rewrite Array_sort_perm in Hi. now apply indexed_elem.
Qed.

(** X1. The selection of part_000 does what the specification asks of top-K:
    [min k n] entries out of [n] probabilities, sorted by non-increasing
    probability, entries of equal probability by ascending index; when [k]
    is at least [n], every index is returned once. *)
Lemma getTopK_ranked (probs : list Q) (k : nat) :
  length (Part000.getTopK probs k) = Nat.min k (length probs) /\
  (forall (i j : nat) (a b : Part000.Prediction),
      i < j ->
      Part000.getTopK probs k !! i = Some a ->
      Part000.getTopK probs k !! j = Some b ->
      (Part000.probability b <= Part000.probability a)%Q /\
      ((Part000.probability a == Part000.probability b)%Q ->
       Part000.id a < Part000.id b)) /\
  (length probs <= k ->
   Part000.id <$> Part000.getTopK probs k ≡ₚ seq 0 (length probs)).
Proof.
  rewrite getTopK_unfold. split; [|split].
  - rewrite length_fmap, length_take.
    now rewrite (Permutation_length (Array_sort_perm _ _)), indexed_length.
  - intros i j a b Hlt Hi Hj.
    eapply (StronglySorted_lookup
              (fun a b : Part000.Prediction =>
                 (Part000.probability b <= Part000.probability a)%Q /\
                 ((Part000.probability a == Part000.probability b)%Q ->
                  Part000.id a < Part000.id b)));
      [|exact Hlt|exact Hi|exact Hj].
    eapply StronglySorted_fmap;
      [|apply StronglySorted_take, getTopK_sorted_pairs].
    intros [p m] [q n] [Hle Htie]. unfold larger_first in Hle, Htie.
    cbn in Hle, Htie |- *. apply Qle_bool_iff in Hle. split; [exact Hle|].
    intros Heq. apply Htie, Qle_bool_iff. rewrite Heq. apply Qle_refl.
  - intros Hall. rewrite take_ge
      by now rewrite (Permutation_length (Array_sort_perm _ _)), indexed_length.
    rewrite <- list_fmap_compose.
    rewrite (list_fmap_ext (Part000.id ∘ prediction_of) snd)
      by (intros ? [p m] _; reflexivity).
    now rewrite Array_sort_perm, indexed_indices.
Qed.

(** The display name of every entry is read from the table at the entry's
    index, falls back to ["class_<index>"] where the table has no such
    index, and has its underscores replaced by spaces in both cases. *)
Lemma getTopK_names (probs : list Q) (k : nat) (prediction : Part000.Prediction) :
  prediction ∈ Part000.getTopK probs k ->
  Part000.name prediction =
    replace_underscores
      match Part000.imagenetClasses !! Part000.id prediction with
      | Some entry => entry.2
      | None => ("class_" ++ toString (Part000.id prediction))%string
      end.
Proof.
  intros Hin. apply getTopK_elem in Hin as ([p m] & -> & _). reflexivity.
Qed.

(** C10. Every record that [getTopK] returns agrees with its input: its
    [id] is an index of the probability sequence and its [probability] is
    the element of the sequence at that index. *)
Theorem getTopK_consistent :
  forall (classProbabilities : list Q) (k : nat)
         (prediction : Part000.Prediction),
    prediction ∈ Part000.getTopK classProbabilities k ->
    Part000.id prediction < length classProbabilities /\
    classProbabilities !! Part000.id prediction =
      Some (Part000.probability prediction).
Proof.
  intros probs k prediction Hin.
  apply getTopK_elem in Hin as ([p m] & -> & Hlookup). cbn in Hlookup |- *.
  split; [|exact Hlookup]. eapply lookup_lt_Some. exact Hlookup.
Qed.

(** The statement of C10 at the first entry of the top 2 of
    [0.1, 0.7, 0.2]. *)
Lemma getTopK_consistent_witness :
  {| Part000.id := 1; Part000.name := "goldfish";
     Part000.probability := 7 # 10 |}
    ∈ Part000.getTopK [1 # 10; 7 # 10; 2 # 10]%Q 2 /\
  1 < length [1 # 10; 7 # 10; 2 # 10]%Q /\
  [1 # 10; 7 # 10; 2 # 10]%Q !! 1 = Some (7 # 10)%Q.
Proof.
  assert (Hin : {| Part000.id := 1; Part000.name := "goldfish";
                   Part000.probability := 7 # 10 |}
                  ∈ Part000.getTopK [1 # 10; 7 # 10; 2 # 10]%Q 2).
  { apply (list_elem_of_lookup_2 _ 0). reflexivity. }
  split; [exact Hin|].
  exact (getTopK_consistent [1 # 10; 7 # 10; 2 # 10]%Q 2 _ Hin).
Defined.

(* ===================================================================== *)
(** * imagenetClassesTopK (main.js) *)
(* ===================================================================== *)

Section MapM.

Context {A B : Type}.
Variable callbackfn : A -> Completion B.

Lemma Array_mapM_cons (x : A) (l : list A) :
  Array_mapM callbackfn (x :: l) =
    match callbackfn x with
    | Normal y =>
        match Array_mapM callbackfn l with
        | Normal ys => Normal (y :: ys)
        | Throw exn => Throw exn
        end
    | Throw exn => Throw exn
    end.
Proof. reflexivity. Qed.

Lemma Array_mapM_Normal (l : list A) :
  Forall (fun x => exists y, callbackfn x = Normal y) l ->
  exists ys, Array_mapM callbackfn l = Normal ys /\
             Forall2 (fun x y => callbackfn x = Normal y) l ys.
Proof.
  induction 1 as [|x l [y Hy] _ (ys & Hys & Hall)].
  - exists []. split; [reflexivity|constructor].
  - exists (y :: ys). split; [|now constructor].
    now rewrite Array_mapM_cons, Hy, Hys.
Qed.

Lemma Array_mapM_Throw (exn : Exception) (l : list A) (x : A) :
  (forall z, (exists y, callbackfn z = Normal y) \/ callbackfn z = Throw exn) ->
  x ∈ l -> callbackfn x = Throw exn ->
  Array_mapM callbackfn l = Throw exn.
Proof.
  intros Hall Hin Hx.
  induction l as [|z l IH]; [inversion Hin|].
  rewrite Array_mapM_cons. destruct (Hall z) as [[y Hy]|Hz].
  - rewrite Hy. apply elem_of_cons in Hin as [->|Hin]; [congruence|].
    now rewrite (IH Hin).
  - now rewrite Hz.
Qed.

End MapM.

Section MainTopK.

Context {ClassId : Type}.
Variable imagenetClasses : list (ClassId * string).

Lemma imagenetClassesTopK_sorted_pairs (probs : list Q) :
  StronglySorted (flip (stably_before smaller_first snd))
    (lodash_reverse
       (lodash_sortBy (fun probIndex : Q * nat => probIndex.1) (indexed probs))).
Proof.
  unfold lodash_reverse, lodash_sortBy. apply StronglySorted_rev.
  apply Array_sort_stable.
  - exact sortBy_comparator.
  - exact smaller_first_total.
  - exact smaller_first_trans.
  - apply indexed_positions.
Qed.

Lemma describe_Normal (probIndex : Q * nat) (iClass : ClassId * string) :
  imagenetClasses !! probIndex.2 = Some iClass ->
  Main.describe imagenetClasses probIndex =
    Normal {| Main.id := iClass.1; Main.index := probIndex.2;
              Main.name := replace_underscores iClass.2;
              Main.probability := probIndex.1 |}.
Proof. intros Hlookup. unfold Main.describe. now rewrite Hlookup. Qed.

Lemma describe_Throw (probIndex : Q * nat) :
  imagenetClasses !! probIndex.2 = None ->
  Main.describe imagenetClasses probIndex =
    Throw (TypeError "Cannot read properties of undefined (reading '0')").
Proof. intros Hlookup. unfold Main.describe. now rewrite Hlookup. Qed.

(** X3. What the selection of main.js does when the table lists every class:
    [min k n] entries, sorted by non-increasing probability, but entries of
    equal probability by descending index, since a stable ascending sort is
    reversed. *)
Lemma imagenetClassesTopK_ranked (probs : list Q) (k : nat) :
  length probs <= length imagenetClasses ->
  exists result : list (Main.Prediction ClassId),
    Main.imagenetClassesTopK imagenetClasses probs k = Normal result /\
    length result = Nat.min k (length probs) /\
    forall (i j : nat) (a b : Main.Prediction ClassId),
      i < j -> result !! i = Some a -> result !! j = Some b ->
      (Main.probability b <= Main.probability a)%Q /\
      ((Main.probability a == Main.probability b)%Q ->
       Main.index b < Main.index a).
Proof.
  intros Htable. unfold Main.imagenetClassesTopK, lodash_take.
  fold (indexed probs).
  set (sorted := lodash_reverse (lodash_sortBy _ (indexed probs))).
  assert (Hperm : sorted ≡ₚ indexed probs).
  { unfold sorted, lodash_reverse, lodash_sortBy.
    now rewrite <- Permutation_rev, Array_sort_perm. }
  destruct (Array_mapM_Normal (Main.describe imagenetClasses) (take k sorted))
    as (result & Hrun & Hall).
  { apply Forall_forall. intros entry Hin.
    apply subseteq_take in Hin. rewrite Hperm in Hin.
    apply indexed_elem, lookup_lt_Some in Hin.
    destruct (lookup_lt_is_Some_2 imagenetClasses entry.2) as [iClass Hclass];
      [lia|].
    eexists. apply describe_Normal. exact Hclass. }
  exists result. split; [exact Hrun|]. split.
  - rewrite <- (Forall2_length _ _ _ Hall), length_take.
    now rewrite (Permutation_length Hperm), indexed_length.
  - intros i j a b Hlt Hi Hj.
    destruct (Forall2_lookup_r _ _ _ _ _ Hall Hi) as (x & Hx & Hdx).
    destruct (Forall2_lookup_r _ _ _ _ _ Hall Hj) as (y & Hy & Hdy).
    assert (Hxy : flip (stably_before smaller_first snd) x y).
    { apply (StronglySorted_lookup _ (take k sorted) i j); [|assumption..].
      apply StronglySorted_take, imagenetClassesTopK_sorted_pairs. }
    unfold Main.describe in Hdx, Hdy.
    destruct (imagenetClasses !! x.2); [|discriminate].
    destruct (imagenetClasses !! y.2); [|discriminate].
    injection Hdx as <-. injection Hdy as <-. cbn.
    destruct Hxy as [Hle Htie]. unfold smaller_first in Hle, Htie.
    apply Qle_bool_iff in Hle. split; [exact Hle|].
    intros Heq. apply Htie, Qle_bool_iff. rewrite Heq. apply Qle_refl.
Qed.

(** As soon as one selected index has no entry in the table, the selection
    of main.js throws instead of returning a list. *)
Lemma imagenetClassesTopK_throws (probs : list Q) (k : nat) (entry : Q * nat) :
  entry ∈ lodash_take
            (lodash_reverse
               (lodash_sortBy (fun probIndex : Q * nat => probIndex.1)
                  (indexed probs))) k ->
  imagenetClasses !! entry.2 = None ->
  Main.imagenetClassesTopK imagenetClasses probs k =
    Throw (TypeError "Cannot read properties of undefined (reading '0')").
Proof.
  intros Hin Hnone. unfold Main.imagenetClassesTopK. fold (indexed probs).
  apply (Array_mapM_Throw _ _ _ entry); [|exact Hin|now apply describe_Throw].
  intros z. destruct (imagenetClasses !! z.2) as [iClass|] eqn:Hz.
  - left. eexists. apply describe_Normal. exact Hz.
  - right. now apply describe_Throw.
Qed.

End MainTopK.

(** C2, at the input where main.js departs from it.  On two equal
    probabilities [imagenetClassesTopK] returns index 1 before index 0:
    ties come out by descending index, where the claim has ascending index.
    [getTopK] of part_000 returns index 0 before index 1 on the same input. *)
Theorem imagenetClassesTopK_reverses_ties :
  Main.imagenetClassesTopK Part000.imagenetClasses [1 # 2; 1 # 2]%Q 2 =
    Normal [ {| Main.id := 1; Main.index := 1; Main.name := "goldfish";
                Main.probability := 1 # 2 |};
             {| Main.id := 0; Main.index := 0; Main.name := "tench";
                Main.probability := 1 # 2 |} ] /\
  Part000.getTopK [1 # 2; 1 # 2]%Q 2 =
    [ {| Part000.id := 0; Part000.name := "tench";
         Part000.probability := 1 # 2 |};
      {| Part000.id := 1; Part000.name := "goldfish";
         Part000.probability := 1 # 2 |} ].
Proof. split; vm_compute; reflexivity. Qed.

(** C6, at the input where main.js departs from it.  With the table of
    classes 0 to 19 and a best class 20, [imagenetClassesTopK] throws a
    [TypeError] when it reads the missing entry, where the claim has the
    fallback name; [getTopK] of part_000 names the class "class 20". *)
Theorem imagenetClassesTopK_missing_class :
  Main.imagenetClassesTopK Part000.imagenetClasses beyond_table 1 =
    Throw (TypeError "Cannot read properties of undefined (reading '0')") /\
  Part000.getTopK beyond_table 1 =
    [ {| Part000.id := 20; Part000.name := "class 20";
         Part000.probability := 1 |} ].
Proof. split; vm_compute; reflexivity. Qed.

(* ===================================================================== *)
(** * Display names *)
(* ===================================================================== *)

Lemma replace_underscores_clean (s : string) :
  ~ In "_"%char (list_ascii_of_string (replace_underscores s)).
Proof.
  induction s as [|c rest IH]; cbn [replace_underscores list_ascii_of_string].
  - intros [].
  - intros [Hhead|Htail]; [|exact (IH Htail)].
    destruct (Ascii.eqb c "_") eqn:Hc.
    + discriminate.
    + apply Ascii.eqb_neq in Hc. congruence.
Qed.

Lemma replace_underscores_app (s t : string) :
  replace_underscores (s ++ t) =
    (replace_underscores s ++ replace_underscores t)%string.
Proof.
  induction s as [|c rest IH]; [reflexivity|].
  cbn [append replace_underscores]. now rewrite IH.
Qed.

Lemma replace_underscores_numeral (index : nat) :
  replace_underscores (toString index) = toString index.
Proof.
  unfold toString.
  assert (Hdigits : forall d, replace_underscores (NilEmpty.string_of_uint d) =
                              NilEmpty.string_of_uint d).
  { induction d; cbn [NilEmpty.string_of_uint replace_underscores];
      try rewrite IHd; reflexivity. }
  destruct (Nat.to_uint index) eqn:Hd; try exact (Hdigits _). reflexivity.
Qed.

(** X2. The display name of every entry that [getTopK] returns holds no
    underscore.  For an index that the table lists it is the listed name
    with its underscores turned into spaces; for an index that the table
    does not list it is ["class "] followed by the decimal index: the
    underscore of the fallback ["class_<index>"] is replaced as well. *)
Theorem getTopK_display_name :
  forall (classProbabilities : list Q) (k : nat)
         (prediction : Part000.Prediction),
    prediction ∈ Part000.getTopK classProbabilities k ->
    ~ In "_"%char (list_ascii_of_string (Part000.name prediction)) /\
    (forall entry : nat * string,
        Part000.imagenetClasses !! Part000.id prediction = Some entry ->
        Part000.name prediction = replace_underscores entry.2) /\
    (Part000.imagenetClasses !! Part000.id prediction = None ->
     Part000.name prediction =
       ("class " ++ toString (Part000.id prediction))%string).
Proof.
  intros probs k prediction Hin.
  apply getTopK_elem in Hin as ([p m] & -> & _).
  cbn [prediction_of Part000.name Part000.id]. unfold Part000.className.
  split; [apply replace_underscores_clean|]. split.
  - intros entry Hentry. now rewrite Hentry.
  - intros Hnone. rewrite Hnone, replace_underscores_app.
    now rewrite replace_underscores_numeral.
Qed.

(** The statement of X2 at the best class of [beyond_table]. *)
Lemma getTopK_display_name_witness :
  {| Part000.id := 20; Part000.name := "class 20"; Part000.probability := 1 |}
    ∈ Part000.getTopK beyond_table 1 /\
  ~ In "_"%char (list_ascii_of_string "class 20") /\
  (forall entry : nat * string,
      Part000.imagenetClasses !! 20 = Some entry ->
      "class 20"%string = replace_underscores entry.2) /\
  (Part000.imagenetClasses !! 20 = None ->
   "class 20"%string = ("class " ++ toString 20)%string).
Proof.
  assert (Hin : {| Part000.id := 20; Part000.name := "class 20";
                   Part000.probability := 1 |}
                  ∈ Part000.getTopK beyond_table 1).
  { apply (list_elem_of_lookup_2 _ 0). reflexivity. }
  split; [exact Hin|].
  exact (getTopK_display_name beyond_table 1 _ Hin).
Defined.

(* ===================================================================== *)
(** * More on imagenetClassesTopK *)
(* ===================================================================== *)

(** The statement of [imagenetClassesTopK_ranked] at the table of part_000
    and the probabilities [0.5, 0.7, 0.5]. *)
Lemma imagenetClassesTopK_ranked_witness :
  length [1 # 2; 7 # 10; 1 # 2]%Q <= length Part000.imagenetClasses /\
  exists result : list (Main.Prediction nat),
    Main.imagenetClassesTopK Part000.imagenetClasses
      [1 # 2; 7 # 10; 1 # 2]%Q 2 = Normal result /\
    length result = Nat.min 2 (length [1 # 2; 7 # 10; 1 # 2]%Q) /\
    forall (i j : nat) (a b : Main.Prediction nat),
      i < j -> result !! i = Some a -> result !! j = Some b ->
      (Main.probability b <= Main.probability a)%Q /\
      ((Main.probability a == Main.probability b)%Q ->
       Main.index b < Main.index a).
Proof.
  assert (Hlen : length [1 # 2; 7 # 10; 1 # 2]%Q <=
                 length Part000.imagenetClasses) by (cbn; lia).
  split; [exact Hlen|].
  exact (imagenetClassesTopK_ranked Part000.imagenetClasses
           [1 # 2; 7 # 10; 1 # 2]%Q 2 Hlen).
Defined.

Section ShortTable.

Context {ClassId : Type}.
Variable imagenetClasses : list (ClassId * string).

(** With a count of zero nothing is selected and the table is never read. *)
Lemma imagenetClassesTopK_zero (probs : list Q) :
  Main.imagenetClassesTopK imagenetClasses probs 0 = Normal [].
Proof. reflexivity. Qed.

(** X4. When the table is shorter than the probability sequence and all
    the entries are asked for ([k] at least the number of probabilities),
    [imagenetClassesTopK] throws a [TypeError]: some selected index has no
    entry in the table, and the code reads [iClass[0]] of [undefined]. *)
Theorem imagenetClassesTopK_short_table :
  forall (classProbabilities : list Q) (k : nat),
    length imagenetClasses < length classProbabilities ->
    length classProbabilities <= k ->
    Main.imagenetClassesTopK imagenetClasses classProbabilities k =
      Throw (TypeError "Cannot read properties of undefined (reading '0')").
Proof.
  intros probs k Hshort Hall.
  destruct (lookup_lt_is_Some_2 probs (length imagenetClasses) Hshort)
    as [p Hp].
  apply (imagenetClassesTopK_throws imagenetClasses probs k
           (p, length imagenetClasses)).
  - unfold lodash_take, lodash_reverse, lodash_sortBy.
    rewrite take_ge.
    + rewrite <- Permutation_rev, Array_sort_perm. now apply indexed_elem.
    + rewrite length_rev, (Permutation_length (Array_sort_perm _ _)).
      now rewrite indexed_length.
  - apply lookup_ge_None. cbn. lia.
Qed.

End ShortTable.

(** The statement of X4 at an empty table and a single probability. *)
Lemma imagenetClassesTopK_short_table_witness :
  length (@nil (nat * string)) < length [1%Q] /\
  length [1%Q] <= 5 /\
  Main.imagenetClassesTopK (@nil (nat * string)) [1%Q] 5 =
    Throw (TypeError "Cannot read properties of undefined (reading '0')").
Proof.
  assert (Hshort : length (@nil (nat * string)) < length [1%Q]) by (cbn; lia).
  assert (Hall : length [1%Q] <= 5) by (cbn; lia).
  split; [exact Hshort|]. split; [exact Hall|].
  exact (imagenetClassesTopK_short_table [] [1%Q] 5 Hshort Hall).
Defined.

(* ===================================================================== *)
(** * The two selections side by side *)
(* ===================================================================== *)

Lemma StronglySorted_weaken_elem {A : Type} (R R' : relation A) (l : list A) :
  (forall a b, a ∈ l -> b ∈ l -> R' a b -> R a b) ->
  StronglySorted R' l -> StronglySorted R l.
Proof.
  intros Hweak Hsorted. induction Hsorted as [|x l _ IH Hall]; [constructor|].
  constructor.
  - apply IH. intros a b Ha Hb. apply Hweak; now apply list_elem_of_further.
  - rewrite Forall_forall in Hall |- *. intros y Hy.
    apply Hweak; [apply list_elem_of_here|now apply list_elem_of_further|].
    now apply Hall.
Qed.

Lemma Array_mapM_fmap {A B : Type} (callbackfn : A -> Completion B)
  (g : A -> B) (l : list A) :
  (forall x, x ∈ l -> callbackfn x = Normal (g x)) ->
  Array_mapM callbackfn l = Normal (g <$> l).
Proof.
  induction l as [|x l IH]; intros Hall; [reflexivity|].
  rewrite Array_mapM_cons, (Hall x) by apply list_elem_of_here.
  rewrite IH; [reflexivity|].
  intros y Hy. apply Hall. now apply list_elem_of_further.
Qed.

(** In the table of part_000 the entry at index [i] carries the id [i]. *)
Lemma imagenetClasses_ids (i : nat) (entry : nat * string) :
  Part000.imagenetClasses !! i = Some entry -> entry.1 = i.
Proof.
  intros Hentry.
  do 20 (destruct i as [|i]; [injection Hentry as <-; reflexivity|]).
  discriminate.
Qed.

(** Without ties the ascending sort reversed is the descending sort. *)
Lemma sorted_pairs_agree (probs : list Q) :
  (forall (i j : nat) (p q : Q),
      probs !! i = Some p -> probs !! j = Some q -> (p == q)%Q -> i = j) ->
  lodash_reverse
    (lodash_sortBy (fun probIndex : Q * nat => probIndex.1) (indexed probs)) =
  Array_sort (fun a b : Q * nat => (b.1 - a.1)%Q) (indexed probs).
Proof.
  intros Hdistinct.
  apply (StronglySorted_unique_strong (stably_before larger_first snd)).
  - intros a b _ _ [Hab Hab'] [Hba Hba'].
    specialize (Hab' Hba). specialize (Hba' Hab). lia.
  - apply (StronglySorted_weaken_elem _
             (flip (stably_before smaller_first snd)));
      [|apply imagenetClassesTopK_sorted_pairs].
    intros a b Ha Hb [Hle Htie].
    unfold smaller_first in Hle, Htie. unfold stably_before, larger_first.
    split; [exact Hle|]. intros Hge.
    specialize (Htie Hge).
    unfold lodash_reverse, lodash_sortBy in Ha, Hb.
    rewrite <- Permutation_rev, Array_sort_perm in Ha, Hb.
    apply indexed_elem in Ha, Hb.
    apply Qle_bool_iff in Hle, Hge.
    assert (Heq : a.2 = b.2).
    { apply (Hdistinct _ _ _ _ Ha Hb). now apply Qle_antisym. }
    cbn in Htie. lia.
  - apply getTopK_sorted_pairs.
  - unfold lodash_reverse, lodash_sortBy.
    now rewrite <- Permutation_rev, !Array_sort_perm.
Qed.

(** X5. On probabilities that are pairwise distinct, and with the table of
    part_000 listing every class of the sequence, the selection of main.js
    returns what [getTopK] of part_000 returns, entry by entry: the same
    index (which is also the [id] read from the table), the same display
    name and the same probability, in the same order. *)
Theorem topK_selections_agree :
  forall (classProbabilities : list Q) (k : nat),
    length classProbabilities <= length Part000.imagenetClasses ->
    (forall (i j : nat) (p q : Q),
        classProbabilities !! i = Some p ->
        classProbabilities !! j = Some q -> (p == q)%Q -> i = j) ->
    Main.imagenetClassesTopK Part000.imagenetClasses classProbabilities k =
      Normal ((fun prediction : Part000.Prediction =>
                 {| Main.id := Part000.id prediction;
                    Main.index := Part000.id prediction;
                    Main.name := Part000.name prediction;
                    Main.probability := Part000.probability prediction |})
                <$> Part000.getTopK classProbabilities k).
Proof.
  intros probs k Htable Hdistinct.
  unfold Main.imagenetClassesTopK, lodash_take. fold (indexed probs).
  rewrite (sorted_pairs_agree probs Hdistinct), getTopK_unfold.
  rewrite <- list_fmap_compose. apply Array_mapM_fmap.
  intros [p m] Hin. apply subseteq_take in Hin.
  rewrite Array_sort_perm in Hin.
  apply indexed_elem, lookup_lt_Some in Hin. cbn in Hin.
  destruct (lookup_lt_is_Some_2 Part000.imagenetClasses m) as [entry Hentry];
    [lia|].
  rewrite (describe_Normal _ _ entry) by exact Hentry.
  cbn. unfold Part000.className. rewrite Hentry.
  now rewrite (imagenetClasses_ids m entry Hentry).
Qed.

(** The statement of X5 at the probabilities [0.1, 0.7, 0.2]. *)
Lemma topK_selections_agree_witness :
  length [1 # 10; 7 # 10; 2 # 10]%Q <= length Part000.imagenetClasses /\
  (forall (i j : nat) (p q : Q),
      [1 # 10; 7 # 10; 2 # 10]%Q !! i = Some p ->
      [1 # 10; 7 # 10; 2 # 10]%Q !! j = Some q -> (p == q)%Q -> i = j) /\
  Main.imagenetClassesTopK Part000.imagenetClasses
    [1 # 10; 7 # 10; 2 # 10]%Q 2 =
    Normal ((fun prediction : Part000.Prediction =>
               {| Main.id := Part000.id prediction;
                  Main.index := Part000.id prediction;
                  Main.name := Part000.name prediction;
                  Main.probability := Part000.probability prediction |})
              <$> Part000.getTopK [1 # 10; 7 # 10; 2 # 10]%Q 2).
Proof.
  assert (Hlen : length [1 # 10; 7 # 10; 2 # 10]%Q <=
                 length Part000.imagenetClasses) by (cbn; lia).
  assert (Hdistinct : forall (i j : nat) (p q : Q),
             [1 # 10; 7 # 10; 2 # 10]%Q !! i = Some p ->
             [1 # 10; 7 # 10; 2 # 10]%Q !! j = Some q -> (p == q)%Q -> i = j).
  { intros i j p q Hi Hj Heq.
    destruct i as [|[|[|i]]]; destruct j as [|[|[|j]]];
      try discriminate; try reflexivity;
      injection Hi as <-; injection Hj as <-; discriminate. }
  split; [exact Hlen|]. split; [exact Hdistinct|].
  exact (topK_selections_agree [1 # 10; 7 # 10; 2 # 10]%Q 2 Hlen Hdistinct).
Defined.

(* ===================================================================== *)
(** * What the tensor holds *)
(* ===================================================================== *)




(* ===================================================================== *)
(** * softmax: when it fails, and what poisons it *)
(* ===================================================================== *)


Section Binary64Facts.

Lemma is_nan_eq (a : float) : is_nan a = true -> a = nan.
Proof.
  unfold is_nan. rewrite FloatAxioms.eqb_spec. intros Hnan.
  apply Prim2SF_inj. change (Prim2SF nan) with S754_nan.
  destruct (Prim2SF a) as [s|s| |s m e]; try reflexivity; exfalso.
  - discriminate.
  - destruct s; discriminate.
  - unfold SFeqb, SFcompare in Hnan.
    rewrite Z.compare_refl, Pos.compare_cont_refl in Hnan.
    destruct s; discriminate.
Qed.

Lemma sub_nan (a : float) : (a - nan)%float = nan.
Proof.
  apply Prim2SF_inj. rewrite sub_spec.
  change (Prim2SF nan) with S754_nan.
  destruct (Prim2SF a); reflexivity.
Qed.

Lemma add_nan_r (a : float) : (a + nan)%float = nan.
Proof.
  apply Prim2SF_inj. rewrite add_spec.
  change (Prim2SF nan) with S754_nan.
  destruct (Prim2SF a); reflexivity.
Qed.

Lemma add_nan_l (a : float) : (nan + a)%float = nan.
Proof.
  apply Prim2SF_inj. rewrite add_spec.
  change (Prim2SF nan) with S754_nan. reflexivity.
Qed.

Lemma div_nan (a : float) : (a / nan)%float = nan.
Proof.
  apply Prim2SF_inj. rewrite div_spec.
  change (Prim2SF nan) with S754_nan.
  destruct (Prim2SF a); reflexivity.
Qed.

Lemma ltb_infinity (a : float) :
  is_nan a = false -> (a <? infinity)%float = false -> a = infinity.
Proof.
  intros Hnan Hlt. apply Prim2SF_inj.
  assert (Hnot : Prim2SF a <> S754_nan).
  { intros Heq. assert (a = nan) by (apply Prim2SF_inj; exact Heq).
    subst a. discriminate. }
  rewrite ltb_spec in Hlt. change (Prim2SF infinity) with (S754_infinity false) in *.
  destruct (Prim2SF a) as [s|s| |s m e]; try congruence;
    try (destruct s; discriminate). destruct s; [discriminate|reflexivity].
Qed.

Lemma infinity_ltb (a : float) : (infinity <? a)%float = false.
Proof.
  rewrite ltb_spec. change (Prim2SF infinity) with (S754_infinity false).
  destruct (Prim2SF a) as [s|s| |s m e]; try reflexivity; destruct s; reflexivity.
Qed.

Lemma sub_infinity (a : float) :
  is_nan a = false -> a <> infinity -> (a - infinity)%float = neg_infinity.
Proof.
  intros Hnan Hne. apply Prim2SF_inj. rewrite sub_spec.
  assert (Hnot : Prim2SF a <> S754_nan).
  { intros Heq. assert (a = nan) by (apply Prim2SF_inj; exact Heq).
    subst a. discriminate. }
  assert (Hinf : Prim2SF a <> S754_infinity false).
  { intros Heq. apply Hne. apply Prim2SF_inj. exact Heq. }
  change (Prim2SF infinity) with (S754_infinity false).
  change (Prim2SF neg_infinity) with (S754_infinity true).
  destruct (Prim2SF a) as [s|s| |s m e]; try congruence; try reflexivity.
  destruct s; [reflexivity|congruence].
Qed.

End Binary64Facts.

Section Poison.

Lemma max64_Exactly (highest : float) (numbers : list float) :
  foldl (lift2 max_step) (Exactly highest) (Exactly <$> numbers) =
    Exactly (foldl max_step highest numbers).
Proof.
  revert highest. induction numbers as [|x l IH]; intros highest;
    [reflexivity|]. cbn [fmap list_fmap foldl lift2]. apply IH.
Qed.

Lemma max_step_nan_r (highest : float) : max_step highest nan = nan.
Proof. unfold max_step. change (is_nan nan) with true. now rewrite orb_true_r. Qed.

Lemma foldl_max_step_nan (numbers : list float) :
  foldl max_step nan numbers = nan.
Proof. induction numbers as [|x l IH]; [reflexivity|exact IH]. Qed.

Lemma max_step_choice (highest number : float) :
  is_nan highest = false -> is_nan number = false ->
  max_step highest number = highest \/ max_step highest number = number.
Proof.
  intros Hh Hn. unfold max_step. rewrite Hh, Hn. cbn [orb].
  destruct (_ && _); [now right|]. destruct (_ <? _)%float; auto.
Qed.

Lemma max_step_infinity_r (highest : float) :
  is_nan highest = false -> max_step highest infinity = infinity.
Proof.
  intros Hh. unfold max_step. rewrite Hh.
  change (is_nan infinity) with false. change (is_zero infinity) with false.
  cbn [orb andb]. destruct (highest <? infinity)%float eqn:Hlt; [reflexivity|].
  now apply ltb_infinity.
Qed.

Lemma max_step_infinity_l (number : float) :
  is_nan number = false -> max_step infinity number = infinity.
Proof.
  intros Hn. unfold max_step. rewrite Hn.
  change (is_nan infinity) with false. change (is_zero infinity) with false.
  cbn [orb andb]. rewrite andb_false_r, infinity_ltb. reflexivity.
Qed.

Lemma foldl_max_step_infinity (numbers : list float) :
  Forall (fun x => is_nan x = false) numbers ->
  foldl max_step infinity numbers = infinity.
Proof.
  induction 1 as [|x l Hx _ IH]; [reflexivity|].
  cbn [foldl]. now rewrite max_step_infinity_l.
Qed.

Lemma nan_or_none (numbers : list float) :
  nan ∈ numbers \/ Forall (fun x => is_nan x = false) numbers.
Proof.
  induction numbers as [|x l [Hin|Hall]].
  - right. constructor.
  - left. now apply list_elem_of_further.
  - destruct (is_nan x) eqn:Hx.
    + left. apply is_nan_eq in Hx. subst x. apply list_elem_of_here.
    + right. now constructor.
Qed.

Lemma foldl_max_step_has_nan (highest : float) (numbers : list float) :
  nan ∈ numbers -> foldl max_step highest numbers = nan.
Proof.
  revert highest. induction numbers as [|x l IH]; intros highest Hin;
    [inversion Hin|].
  apply elem_of_cons in Hin as [<-|Hin]; cbn [foldl].
  - now rewrite max_step_nan_r, foldl_max_step_nan.
  - now apply IH.
Qed.

Lemma foldl_max_step_has_infinity (highest : float) (numbers : list float) :
  is_nan highest = false ->
  Forall (fun x => is_nan x = false) numbers ->
  infinity ∈ numbers ->
  foldl max_step highest numbers = infinity.
Proof.
  intros Hh Hall. revert highest Hh.
  induction Hall as [|x l Hx Hall IH]; intros highest Hh Hin; [inversion Hin|].
  cbn [foldl]. apply elem_of_cons in Hin as [<-|Hin].
  - rewrite (max_step_infinity_r highest Hh).
    now apply foldl_max_step_infinity.
  - apply IH; [|exact Hin].
    destruct (max_step_choice highest x Hh Hx) as [->| ->]; assumption.
Qed.

(** [Math.max] of scores one of which is NaN or [+Infinity]. *)
Lemma max_poisoned (numbers : list float) :
  Exists (fun x => is_nan x = true \/ x = infinity) numbers ->
  max64 (Exactly <$> numbers) = Exactly nan \/
  (max64 (Exactly <$> numbers) = Exactly infinity /\
   Forall (fun x => is_nan x = false) numbers).
Proof.
  intros Hex. unfold max64. rewrite max64_Exactly.
  destruct (nan_or_none numbers) as [Hin|Hall].
  - left. now rewrite foldl_max_step_has_nan.
  - right. split; [|exact Hall]. f_equal.
    apply foldl_max_step_has_infinity; [reflexivity|exact Hall|].
    apply Exists_exists in Hex as (x & Hx & [Hnan| ->]); [|exact Hx].
    rewrite Forall_forall in Hall. specialize (Hall x Hx). congruence.
Qed.

(** The sum of determined terms one of which is NaN. *)
Lemma sum_poisoned (first : float) (terms : list float) :
  first = nan \/ nan ∈ terms ->
  foldl (lift2 PrimFloat.add) (Exactly first) (Exactly <$> terms) = Exactly nan.
Proof.
  revert first. induction terms as [|t l IH]; intros first Hnan.
  - destruct Hnan as [->|Hin]; [reflexivity|inversion Hin].
  - cbn [fmap list_fmap foldl lift2]. apply IH.
    destruct Hnan as [->|Hin]; [left; apply add_nan_l|].
    apply elem_of_cons in Hin as [<-|Hin]; [left; apply add_nan_r|now right].
Qed.

Lemma sub_infinity_cases (x : float) :
  is_nan x = false ->
  (x = infinity /\ (x - infinity)%float = nan) \/
  (x - infinity)%float = neg_infinity.
Proof.
  intros Hx. destruct (Prim2SF x) as [s|s| |s m e] eqn:Hsf.
  - right. apply Prim2SF_inj. rewrite sub_spec, Hsf. reflexivity.
  - destruct s.
    + right. apply Prim2SF_inj. rewrite sub_spec, Hsf. reflexivity.
    + left. assert (x = infinity) as -> by (apply Prim2SF_inj; exact Hsf).
      split; reflexivity.
  - assert (x = nan) as -> by (apply Prim2SF_inj; exact Hsf). discriminate.
  - right. apply Prim2SF_inj. rewrite sub_spec, Hsf. reflexivity.
Qed.

(** [exp (x - largest)] when the largest score is NaN or [+Infinity]: NaN
    where the difference is NaN, zero elsewhere. *)
Lemma exp_poisoned (largest x : float) :
  largest = nan \/ (largest = infinity /\ is_nan x = false) ->
  exp64 (lift2 PrimFloat.sub (Exactly x) (Exactly largest)) =
    Exactly (if is_nan (x - largest) then nan else 0%float) /\
  (largest = nan \/ x = infinity -> is_nan (x - largest) = true).
Proof.
  intros [->|[-> Hx]]; cbn [lift2].
  - rewrite sub_nan. split; reflexivity.
  - destruct (sub_infinity_cases x Hx) as [[-> Hsub]|Hsub].
    + split; reflexivity.
    + rewrite Hsub. split; [reflexivity|].
      intros [Habs| ->]; [discriminate|]. discriminate.
Qed.

End Poison.

(** X8. In binary64 a single NaN or [+Infinity] among the scores poisons
    the whole result: [softmax] does not throw, it returns a sequence of the
    length of the input whose every element is NaN.  (With a NaN score
    [Math.max] is NaN; with [+Infinity] the difference
    [Infinity - Infinity] is NaN; either way the sum of the exponentials is
    NaN and every quotient with it.) *)
Theorem softmax_poisoned :
  forall scores : list float,
    Exists (fun x => is_nan x = true \/ x = infinity) scores ->
    Main.softmax (Exactly <$> scores) =
      Normal (replicate (length scores) (Exactly nan)) /\
    Part000.softmax (Exactly <$> scores) =
      Normal (replicate (length scores) (Exactly nan)).
Proof.
  intros scores Hex.
  change (Part000.softmax (Exactly <$> scores))
    with (Main.softmax (Exactly <$> scores)).
  enough (Hmain : Main.softmax (Exactly <$> scores) =
                    Normal (replicate (length scores) (Exactly nan)))
    by (split; exact Hmain).
  assert (Hmax : exists largest,
             max64 (Exactly <$> scores) = Exactly largest /\
             forall x, x ∈ scores ->
               largest = nan \/ (largest = infinity /\ is_nan x = false)).
  { destruct (max_poisoned scores Hex) as [Hnan|[Hinf Hall]].
    - exists nan. split; [exact Hnan|]. intros x _. now left.
    - exists infinity. split; [exact Hinf|]. intros x Hx. right.
      split; [reflexivity|]. rewrite Forall_forall in Hall. now apply Hall. }
  destruct Hmax as (largest & Hmax & Hcases).
  assert (Hsome : exists x, x ∈ scores /\ is_nan (x - largest) = true).
  { apply Exists_exists in Hex as (x & Hx & Hpoison). exists x.
    split; [exact Hx|].
    apply (exp_poisoned largest x (Hcases x Hx)).
    destruct (Hcases x Hx) as [->|[-> Hnot]]; [now left|].
    destruct Hpoison as [Hnan|Hinf]; [congruence|now right]. }
  destruct scores as [|first rest]; [inversion Hex|].
  rewrite fmap_cons, softmax_unfold.
  cbn [Math_max Math_exp num_sub num_add num_div Binary64Number].
  change (max64 (Exactly first :: (Exactly <$> rest)))
    with (max64 (Exactly <$> first :: rest)).
  rewrite Hmax.
  set (e := fun x : float => if is_nan (x - largest) then nan else 0%float).
  assert (Hexp : forall x, x ∈ first :: rest ->
            exp64 (lift2 PrimFloat.sub (Exactly x) (Exactly largest)) =
              Exactly (e x)).
  { intros x Hx. apply (exp_poisoned largest x (Hcases x Hx)). }
  assert (Hexps : (fun y => exp64 (lift2 PrimFloat.sub y (Exactly largest)))
                    <$> (Exactly <$> rest) = Exactly <$> (e <$> rest)).
  { rewrite <- !list_fmap_compose. apply list_fmap_ext. intros i x Hx.
    apply Hexp, list_elem_of_further. eapply list_elem_of_lookup_2. exact Hx. }
  rewrite Hexps, (Hexp first) by apply list_elem_of_here.
  rewrite sum_poisoned.
  - change (Exactly first :: (Exactly <$> rest))
      with (Exactly <$> first :: rest).
    rewrite <- list_fmap_compose. f_equal.
    apply list_eq. intros i.
    rewrite list_lookup_fmap.
    destruct ((first :: rest) !! i) as [x|] eqn:Hx;
      cbn [fmap option_fmap option_map compose].
    + rewrite lookup_replicate_2 by (eapply lookup_lt_Some; exact Hx).
      rewrite (Hexp x) by (eapply list_elem_of_lookup_2; exact Hx).
      cbn [lift2]. now rewrite div_nan.
    + symmetry. apply lookup_replicate_None. now apply lookup_ge_None.
  - destruct Hsome as (x & Hx & Hnan).
    assert (He : e x = nan) by (unfold e; now rewrite Hnan).
    apply elem_of_cons in Hx as [->|Hx]; [now left|right].
    rewrite <- He. now apply list_elem_of_fmap_2.
Qed.

(** The statement of X8 at the scores [1, +Infinity, 3]. *)
Lemma softmax_poisoned_witness :
  Exists (fun x => is_nan x = true \/ x = infinity)
    [1%float; infinity; 3%float] /\
  Main.softmax (Exactly <$> [1%float; infinity; 3%float]) =
    Normal (replicate (length [1%float; infinity; 3%float]) (Exactly nan)) /\
  Part000.softmax (Exactly <$> [1%float; infinity; 3%float]) =
    Normal (replicate (length [1%float; infinity; 3%float]) (Exactly nan)).
Proof.
  assert (Hex : Exists (fun x => is_nan x = true \/ x = infinity)
                  [1%float; infinity; 3%float]).
  { apply Exists_cons_tl, Exists_cons_hd. now right. }
  split; [exact Hex|].
  exact (softmax_poisoned [1%float; infinity; 3%float] Hex).
Defined.

(* ===================================================================== *)
(** * The share of the best class *)
(* ===================================================================== *)

Section LargestShare.

#[local] Open Scope R_scope.

Lemma Rsum_at_most (es : list R) :
  Forall (fun e => e <= 1) es -> Rsum es <= INR (length es).
Proof.
  induction 1 as [|e es He _ IH]; [cbn; lra|].
  cbn [Rsum length]. rewrite S_INR. lra.
Qed.

Lemma Rsum_ones (es : list R) :
  Forall (fun e => e = 1) es -> Rsum es = INR (length es).
Proof.
  induction 1 as [|e es He _ IH]; [reflexivity|].
  cbn [Rsum length]. rewrite S_INR. lra.
Qed.

(** X9. In exact arithmetic the largest score of [n] scores receives a
    probability of at least [1/n], and when all the scores are equal every
    probability is exactly [1/n]. *)
Theorem softmax_largest_share (scores : list R) :
  scores <> [] ->
  exists probs : list R,
    Main.softmax scores = Normal probs /\
    Part000.softmax scores = Normal probs /\
    (forall (i : nat) (si pi : R),
        scores !! i = Some si -> (forall x, x ∈ scores -> x <= si) ->
        probs !! i = Some pi -> / INR (length scores) <= pi) /\
    ((forall x y, x ∈ scores -> y ∈ scores -> x = y) ->
     Forall (fun p => p = / INR (length scores)) probs).
Proof.
  intros Hne.
  destruct (softmax_real_closed_form scores Hne) as (m & Hm & Hub & Heq).
  set (total := Rsum ((fun y => exp (y - m)) <$> scores)) in *.
  assert (Htotal : 0 < total).
  { apply Rsum_pos; [|apply exps_positive].
    destruct scores; [congruence|discriminate]. }
  assert (Hn : 0 < INR (length scores)).
  { apply lt_0_INR. destruct scores; [congruence|cbn; lia]. }
  eexists. split; [exact Heq|].
  split; [rewrite softmax_part000_body; exact Heq|]. split.
  - intros i si pi Hi Hmax Hpi.
    rewrite list_lookup_fmap, Hi in Hpi. injection Hpi as <-.
    assert (Hsi : si = m).
    { apply Rle_antisym; [apply Hub|apply Hmax, Hm].
      eapply list_elem_of_lookup_2. exact Hi. }
    rewrite Hsi. replace (m - m) with 0 by lra. rewrite exp_0.
    assert (Hle : total <= INR (length scores)).
    { unfold total.
      rewrite <- (length_fmap (fun y => exp (y - m)) scores).
      apply Rsum_at_most, Forall_fmap, Forall_forall. intros x Hx. cbn.
      rewrite <- exp_0. apply (proj1 (exp_le_iff _ _)).
      specialize (Hub x Hx). lra. }
    unfold Rdiv. rewrite Rmult_1_l. now apply Rinv_le_contravar.
  - intros Hall. apply Forall_fmap, Forall_forall. intros x Hx. cbn.
    assert (Hones : total = INR (length scores)).
    { unfold total.
      rewrite <- (length_fmap (fun y => exp (y - m)) scores).
      apply Rsum_ones, Forall_fmap, Forall_forall. intros y Hy. cbn.
      rewrite (Hall y m Hy Hm). replace (m - m) with 0 by lra. apply exp_0. }
    rewrite Hones, (Hall x m Hx Hm).
    replace (m - m) with 0 by lra. rewrite exp_0. unfold Rdiv. lra.
Qed.

(** The statement of X9 at the scores [2, 2]. *)
Lemma softmax_largest_share_witness :
  [2; 2] <> [] /\
  exists probs : list R,
    Main.softmax [2; 2] = Normal probs /\
    Part000.softmax [2; 2] = Normal probs /\
    (forall (i : nat) (si pi : R),
        [2; 2] !! i = Some si -> (forall x, x ∈ [2; 2] -> x <= si) ->
        probs !! i = Some pi -> / INR (length [2; 2]) <= pi) /\
    ((forall x y, x ∈ [2; 2] -> y ∈ [2; 2] -> x = y) ->
     Forall (fun p => p = / INR (length [2; 2])) probs).
Proof.
  split; [discriminate|]. apply (softmax_largest_share [2; 2]). discriminate.
Defined.

End LargestShare.

(* ===================================================================== *)
(** * The frame loop keeps one classification in flight *)
(* ===================================================================== *)

Section FrameLoopFacts.

Import FrameLoop.

Lemma without_elem (loop other : nat) (pending : list nat) :
  other ∈ without loop pending <-> other <> loop /\ other ∈ pending.
Proof. unfold without. now rewrite list_elem_of_filter. Qed.

Lemma without_NoDup (loop : nat) (pending : list nat) :
  NoDup pending -> NoDup (without loop pending).
Proof. apply NoDup_filter. Qed.

Lemma without_only (loop : nat) (pending : list nat) :
  length pending <= 1 -> loop ∈ pending -> without loop pending = [].
Proof.
  intros Hlen Hin. destruct pending as [|c [|d rest]]; [inversion Hin| |cbn in Hlen; lia].
  apply list_elem_of_singleton in Hin as ->.
  unfold without. cbn. now case_decide.
Qed.

(** [processFrame] for a loop that is in no place keeps the page consistent. *)
Lemma processFrame_consistent (loop : nat) (stopped : bool)
  (capture : Completion unit) (page : Page) :
  consistent page -> loop < loops page ->
  loop ∉ timers page -> loop ∉ awaiting page ->
  consistent (processFrame loop stopped capture page).
Proof.
  intros [Hplace Hstarted Hone Hflag Hcounted] Hloop Htimer Hawait.
  unfold processFrame. destruct stopped; [now constructor|].
  assert (Hfresh : NoDup (loop :: timers page ++ awaiting page)).
  { constructor; [|exact Hplace]. rewrite elem_of_app. tauto. }
  destruct (isProcessing page) eqn:Hbusy; cbn [negb].
  - (* busy: the frame is dropped *)
    constructor; cbn.
    + exact Hfresh.
    + now constructor.
    + exact Hone.
    + now rewrite Hbusy.
    + exact Hcounted.
  - assert (Hnone : awaiting page = []).
    { destruct (awaiting page) as [|c l] eqn:Heq; [reflexivity|].
      assert (false = true) by (apply Hflag; discriminate). discriminate. }
    rewrite Hnone, app_nil_r in *.
    destruct capture as [[]|exn]; constructor; cbn; rewrite ?Hnone, ?app_nil_r.
    + apply NoDup_app. repeat split; [exact Hplace| |apply NoDup_singleton].
      intros c Hc Hin. apply list_elem_of_singleton in Hin as ->. tauto.
    + apply Forall_app. split; [exact Hstarted|]. now repeat constructor.
    + cbn. lia.
    + split; [discriminate|reflexivity].
    + repeat constructor. case_decide; lia.
    + exact Hfresh.
    + now constructor.
    + cbn. lia.
    + split; [discriminate|congruence].
    + constructor.
Qed.

Lemma handle_consistent (page : Page) (event : Event) :
  consistent page -> consistent (handle page event).
Proof.
  intros Hpage. pose proof Hpage as [Hplace Hstarted Hone Hflag Hcounted].
  destruct event as [stopped capture|loop stopped capture|loop outcome];
    cbn [handle].
  - (* a new loop *)
    assert (Hnew : loops page ∉ timers page ++ awaiting page).
    { intros Hin. rewrite Forall_forall in Hstarted.
      specialize (Hstarted _ Hin). lia. }
    rewrite elem_of_app in Hnew.
    apply processFrame_consistent; cbn; [|lia|tauto|tauto].
    constructor; cbn; try assumption.
    eapply Forall_impl; [exact Hstarted|]. cbn. intros c Hc. lia.
  - case_decide as Hin; [|exact Hpage].
    assert (Hloop : loop < loops page).
    { rewrite Forall_forall in Hstarted. apply Hstarted.
      rewrite elem_of_app. now left. }
    assert (Hawait : loop ∉ awaiting page).
    { intros Hin'. apply NoDup_app in Hplace as (_ & Hdisjoint & _).
      exact (Hdisjoint loop Hin Hin'). }
    apply processFrame_consistent; cbn; try assumption.
    + constructor; cbn; try assumption.
      * apply NoDup_app in Hplace as (Ht & Hdisjoint & Ha).
        apply NoDup_app. repeat split; [now apply without_NoDup| |exact Ha].
        intros c Hc. apply without_elem in Hc as [_ Hc]. now apply Hdisjoint.
      * rewrite Forall_app in Hstarted |- *. destruct Hstarted as [Ht Ha].
        split; [|exact Ha]. rewrite Forall_forall in Ht |- *.
        intros c Hc. apply without_elem in Hc as [_ Hc]. now apply Ht.
    + rewrite without_elem. tauto.
  - case_decide as Hin; [|exact Hpage].
    assert (Hnone : without loop (awaiting page) = [])
      by now apply without_only.
    assert (Htimer : loop ∉ timers page).
    { intros Hin'. apply NoDup_app in Hplace as (_ & Hdisjoint & _).
      exact (Hdisjoint loop Hin' Hin). }
    assert (Hloop : loop < loops page).
    { rewrite Forall_forall in Hstarted. apply Hstarted.
      rewrite elem_of_app. now right. }
    assert (Htimers : NoDup (timers page) /\
                      Forall (fun c => c < loops page) (timers page)).
    { apply NoDup_app in Hplace as (Ht & _ & _).
      rewrite Forall_app in Hstarted. tauto. }
    destruct Htimers as [Hnodup Hbound]. unfold resume.
    destruct outcome as [predictions|exn]; constructor; cbn;
      rewrite ?Hnone, ?app_nil_r; cbn;
      first [ now constructor
            | lia
            | split; [discriminate|congruence] ].
Qed.

Lemma loaded_consistent : consistent loaded.
Proof.
  constructor; cbn.
  - constructor.
  - constructor.
  - lia.
  - split; [discriminate|intros Hne; now contradict Hne].
  - constructor.
Qed.

Lemma run_consistent (events : list Event) (page : Page) :
  consistent page -> consistent (run events page).
Proof.
  unfold run. revert page. induction events as [|event events IH];
    intros page Hpage; [exact Hpage|].
  cbn [foldl]. apply IH. now apply handle_consistent.
Qed.

End FrameLoopFacts.

Section FrameLoopClaims.

Import FrameLoop.

(** X10. However [loadeddata] events, timers and settled promises
    interleave, at most one loop is ever suspended inside a classification,
    the busy flag [isProcessing] is raised exactly while one is, and no loop
    waits in two places at once. *)
Theorem frame_loop_one_in_flight :
  forall events : list Event,
    let page := run events loaded in
    length (awaiting page) <= 1 /\
    (isProcessing page = true <-> awaiting page <> []) /\
    NoDup (timers page ++ awaiting page).
Proof.
  intros events page.
  destruct (run_consistent events loaded loaded_consistent)
    as [Hplace _ Hone Hflag _].
  split; [exact Hone|]. split; [exact Hflag|exact Hplace].
Qed.



(** What [handle] does to a loop other than the one of the event. *)
Lemma processFrame_other (loop other : nat) (stopped : bool)
  (capture : Completion unit) (page : Page) :
  other <> loop ->
  let page' := processFrame loop stopped capture page in
  loops page' = loops page /\
  (other ∈ timers page' <-> other ∈ timers page) /\
  (other ∈ awaiting page' <-> other ∈ awaiting page) /\
  frameCount page' other = frameCount page other.
Proof.
  intros Hne. unfold processFrame.
  destruct stopped; [tauto|].
  destruct (isProcessing page); cbn [negb].
  - cbn. rewrite elem_of_cons. tauto.
  - destruct capture as [[]|exn]; cbn; rewrite elem_of_cons;
      (case_decide; [congruence|tauto]).
Qed.

Lemma handle_finished (loop : nat) (page : Page) (event : Event) :
  consistent page -> finished loop page ->
  finished loop (handle page event) /\
  frameCount (handle page event) loop = frameCount page loop.
Proof.
  intros Hpage (Hloop & Htimer & Hawait).
  destruct event as [stopped capture|loop' stopped capture|loop' outcome];
    cbn [handle].
  - destruct (processFrame_other (loops page) loop stopped capture
                {| isProcessing := isProcessing page; loops := S (loops page);
                   frameCount := frameCount page; timers := timers page;
                   awaiting := awaiting page; statusText := statusText page;
                   detections := detections page |})
      as (Hloops & Ht & Ha & Hf); [lia|].
    cbn in Hloops, Ht, Ha, Hf. unfold finished.
    rewrite Hloops, Ht, Ha, Hf. repeat split; (lia || tauto).
  - case_decide as Hin; [|unfold finished; tauto].
    assert (Hne : loop <> loop') by congruence.
    destruct (processFrame_other loop' loop stopped capture
                {| isProcessing := isProcessing page; loops := loops page;
                   frameCount := frameCount page;
                   timers := without loop' (timers page);
                   awaiting := awaiting page; statusText := statusText page;
                   detections := detections page |} Hne)
      as (Hloops & Ht & Ha & Hf).
    cbn in Hloops, Ht, Ha, Hf. unfold finished.
    rewrite Hloops, Ht, Ha, Hf, without_elem. repeat split; (lia || tauto).
  - case_decide as Hin; [|unfold finished; tauto].
    assert (Hne : loop <> loop') by congruence.
    unfold finished, resume. destruct outcome; cbn;
      rewrite elem_of_cons, without_elem; repeat split; (lia || tauto).
Qed.

Lemma run_finished (loop : nat) (events : list Event) (page : Page) :
  consistent page -> finished loop page ->
  finished loop (run events page) /\
  frameCount (run events page) loop = frameCount page loop.
Proof.
  unfold run. revert page.
  induction events as [|event events IH]; intros page Hpage Hfinished;
    [tauto|].
  cbn [foldl].
  destruct (handle_finished loop page event Hpage Hfinished) as [Hnext Hcount].
  destruct (IH (handle page event)) as [Hlast Hcount'];
    [now apply handle_consistent|exact Hnext|].
  split; [exact Hlast|congruence].
Qed.

(** X12. A loop whose timer finds the video paused or ended is finished
    for good: [processFrame] returns without setting a new timer, so
    whatever happens afterwards the loop never waits for a timer or a
    promise again and its frame count stays where it was.  Only a new
    [loadeddata] event brings classification back, as a new loop. *)
Theorem stopped_loop_is_finished :
  forall (events later : list Event) (loop : nat)
         (capture : Completion unit),
    let page := run events loaded in
    loop ∈ timers page ->
    let final := run later (handle page (Timer loop true capture)) in
    finished loop final /\
    frameCount final loop = frameCount page loop.
Proof.
  intros events later loop capture page Hin final.
  pose proof (run_consistent events loaded loaded_consistent) as Hpage.
  fold page in Hpage.
  pose proof (handle_consistent page (Timer loop true capture) Hpage) as Hnext.
  pose proof Hpage as [Hplace Hstarted _ _ _].
  assert (Hstop : finished loop (handle page (Timer loop true capture)) /\
                  frameCount (handle page (Timer loop true capture)) loop =
                    frameCount page loop).
  { cbn [handle]. case_decide; [|tauto]. cbn. unfold finished. cbn.
    rewrite without_elem. repeat split; try tauto.
    - rewrite Forall_forall in Hstarted. apply Hstarted.
      rewrite elem_of_app. now left.
    - intros Hin'. apply NoDup_app in Hplace as (_ & Hdisjoint & _).
      exact (Hdisjoint loop Hin Hin'). }
  destruct Hstop as [Hstop Hcount].
  destruct (run_finished loop later _ Hnext Hstop) as [Hfinal Hcount'].
  split; [exact Hfinal|]. unfold final. congruence.
Qed.

(** The statement of X12: the first loop is stopped after its first frame,
    and its timer is fired again later. *)
Lemma stopped_loop_is_finished_witness :
  let events := [Loadeddata false (Normal ()); Settled 0 (Normal [])] in
  let later := [Timer 0 false (Normal ())] in
  let page := run events loaded in
  0 ∈ timers page /\
  let final := run later (handle page (Timer 0 true (Normal ()))) in
  finished 0 final /\ frameCount final 0 = frameCount page 0.
Proof.
  assert (Hin : 0 ∈ timers (run [Loadeddata false (Normal ());
                                 Settled 0 (Normal [])] loaded))
    by apply list_elem_of_here.
  split; [exact Hin|].
  exact (stopped_loop_is_finished
           [Loadeddata false (Normal ()); Settled 0 (Normal [])]
           [Timer 0 false (Normal ())] 0 (Normal ()) Hin).
Defined.

End FrameLoopClaims.
